(** * ReaderWriterLatch (src/include/common/rwlatch.h)

    A small-step model of the BusTub reader-writer latch.  Every thread
    carries a program counter naming the source line it is about to execute;
    the two data members [reader_count_] and [writer_entered_], the internal
    [mutex_] and the two condition variables [writer_] and [reader_] are
    shared.  One event executes one statement of one thread, so that every
    interleaving the C++ scheduler can produce is a list of events. *)

From stdpp Require Import base numbers option list.

Local Open Scope Z_scope.

(** ** Data *)

Abbreviation tid := nat.

(** [static const uint32_t MAX_READERS = UINT_MAX;] (line 29) *)
Definition MAX_READERS : Z := 2 ^ 32 - 1.

(** Arithmetic on [uint32_t] wraps around. *)
Definition wrap32 (z : Z) : Z := z mod 2 ^ 32.

(** The two [cond_t] members (lines 104-105). *)
Inductive cond := writer_ | reader_.

(** The four public methods. *)
Inductive method := mWLock | mWUnlock | mRLock | mRUnlock.

(** Statements, named after their line in rwlatch.h. *)
Inductive loc :=
  (* WLock *)
  | WL45    (* std::unique_lock<mutex_t> latch(mutex_); *)
  | WL50    (* while (writer_entered_) reader_.wait(latch); *)
  | WL54    (* writer_entered_ = true; *)
  | WL56    (* while (reader_count_ > 0) writer_.wait(latch); *)
  | WL59    (* } : latch goes out of scope *)
  (* WUnlock *)
  | WU65    (* std::lock_guard<mutex_t> guard(mutex_); *)
  | WU67    (* writer_entered_ = false; *)
  | WU68    (* reader_.notify_all(); *)
  | WU69    (* } : guard goes out of scope *)
  (* RLock *)
  | RL75    (* std::unique_lock<mutex_t> latch(mutex_); *)
  | RL77    (* while (writer_entered_ || reader_count_ == MAX_READERS) reader_.wait(latch); *)
  | RL80    (* reader_count_++; *)
  | RL81    (* } : latch goes out of scope *)
  (* RUnlock *)
  | RU87    (* std::lock_guard<mutex_t> guard(mutex_); *)
  | RU88    (* reader_count_--; *)
  | RU89    (* if (writer_entered_) *)
  | RU92    (* if (reader_count_ == 0) *)
  | RU93    (* writer_.notify_one(); *)
  | RU96    (* if (reader_count_ == MAX_READERS - 1) *)
  | RU97    (* reader_.notify_one(); *)
  | RU100.  (* } : guard goes out of scope *)

(** What a thread that is outside the latch's methods last obtained. *)
Inductive hold := Idle | Reading | Writing.

(** Where a thread is. *)
Inductive pc :=
  | Rest (h : hold)               (* in client code *)
  | At (l : loc)                  (* about to execute the statement at [l] *)
  | Waiting (cv : cond) (l : loc) (* parked in [cv.wait], inside the loop at [l] *)
  | Relock (l : loc).             (* woken inside [wait], re-acquiring [mutex_] *)

(** Who owns [mutex_]. *)
Inductive owner := Thread (t : tid) | Destructor.

(** Life of the object: [~ReaderWriterLatch() { std::lock_guard<mutex_t> guard(mutex_); }] *)
Inductive life :=
  | Alive
  | Finalizing   (* the destructor holds its guard *)
  | Destroyed.

(** Ghost record of the notifications issued, oldest first. *)
Inductive signal := notified_one (cv : cond) | notified_all (cv : cond).

Record State := mkState {
  mutex_ : option owner;
  reader_count_ : Z;        (* uint32_t reader_count_{0}; *)
  writer_entered_ : bool;   (* bool writer_entered_{false}; *)
  pcs : list pc;            (* thread [t] is at [pcs !! t] *)
  object : life;
  signals : list signal
}.

#[global] Instance cond_eq_dec : EqDecision cond.
Proof. solve_decision. Defined.
#[global] Instance method_eq_dec : EqDecision method.
Proof. solve_decision. Defined.
#[global] Instance loc_eq_dec : EqDecision loc.
Proof. solve_decision. Defined.
#[global] Instance hold_eq_dec : EqDecision hold.
Proof. solve_decision. Defined.
#[global] Instance pc_eq_dec : EqDecision pc.
Proof. solve_decision. Defined.
#[global] Instance owner_eq_dec : EqDecision owner.
Proof. solve_decision. Defined.
#[global] Instance life_eq_dec : EqDecision life.
Proof. solve_decision. Defined.
#[global] Instance signal_eq_dec : EqDecision signal.
Proof. solve_decision. Defined.

(** [n] threads, none of them inside the latch (default member initialisers). *)
Definition init (n : nat) : State :=
  mkState None 0 false (replicate n (Rest Idle)) Alive [].

(** ** Field updates *)

Definition set_mutex_ (o : option owner) (s : State) : State :=
  mkState o (reader_count_ s) (writer_entered_ s) (pcs s) (object s) (signals s).
Definition set_reader_count_ (c : Z) (s : State) : State :=
  mkState (mutex_ s) c (writer_entered_ s) (pcs s) (object s) (signals s).
Definition set_writer_entered_ (b : bool) (s : State) : State :=
  mkState (mutex_ s) (reader_count_ s) b (pcs s) (object s) (signals s).
Definition set_pcs (l : list pc) (s : State) : State :=
  mkState (mutex_ s) (reader_count_ s) (writer_entered_ s) l (object s) (signals s).
Definition set_object (d : life) (s : State) : State :=
  mkState (mutex_ s) (reader_count_ s) (writer_entered_ s) (pcs s) d (signals s).
Definition emit (g : signal) (s : State) : State :=
  mkState (mutex_ s) (reader_count_ s) (writer_entered_ s) (pcs s) (object s)
          (signals s ++ [g]).

(** Thread [t] moves to [p]. *)
Definition goto (t : tid) (p : pc) (s : State) : State :=
  set_pcs (<[t := p]> (pcs s)) s.

(** ** std::mutex and std::condition_variable *)

(** [mutex_.lock()], by the constructor of a guard or on the way out of
    [wait]: enabled only when the mutex is free. *)
Definition lock (t : tid) (l : loc) (s : State) : option State :=
  match mutex_ s with
  | None => Some (goto t (At l) (set_mutex_ (Some (Thread t)) s))
  | Some _ => None
  end.

(** The guard's destructor at the closing brace: [mutex_.unlock()] and return. *)
Definition unlock (t : tid) (h : hold) (s : State) : option State :=
  Some (goto t (Rest h) (set_mutex_ None s)).

(** [cv.wait(latch)]: releases the mutex and parks, atomically. *)
Definition wait (cv : cond) (t : tid) (l : loc) (s : State) : option State :=
  Some (goto t (Waiting cv l) (set_mutex_ None s)).

Definition waiting_on (cv : cond) (p : pc) : bool :=
  match p with
  | Waiting cv' _ => bool_decide (cv' = cv)
  | _ => false
  end.

(** A parked thread that is woken has to take the mutex again. *)
Definition wake (p : pc) : pc :=
  match p with
  | Waiting _ l => Relock l
  | _ => p
  end.

(** [cv.notify_one()]: no effect without a waiter; otherwise one waiter,
    [pick], is woken.  Which one is up to the implementation, so [pick] comes
    with the event; a [pick] that is not waiting on [cv] is not a behaviour. *)
Definition notify_one (cv : cond) (pick : tid) (s : State) : option State :=
  if existsb (waiting_on cv) (pcs s) then
    match pcs s !! pick with
    | Some p =>
        if waiting_on cv p
        then Some (emit (notified_one cv) (goto pick (wake p) s))
        else None
    | None => None
    end
  else Some (emit (notified_one cv) s).

(** [cv.notify_all()]: every waiter of [cv] is woken. *)
Definition wake_on (cv : cond) (p : pc) : pc :=
  if waiting_on cv p then wake p else p.

Definition notify_all (cv : cond) (s : State) : option State :=
  Some (emit (notified_all cv) (set_pcs (wake_on cv <$> pcs s) s)).

(** ** The four methods, statement by statement *)

(** Lines 43-59. *)
Definition WLock (t : tid) (l : loc) (s : State) : option State :=
  match l with
  | WL45 => lock t WL50 s
  | WL50 => if writer_entered_ s
            then wait reader_ t WL50 s
            else Some (goto t (At WL54) s)
  | WL54 => Some (goto t (At WL56) (set_writer_entered_ true s))
  | WL56 => if 0 <? reader_count_ s
            then wait writer_ t WL56 s
            else Some (goto t (At WL59) s)
  | WL59 => unlock t Writing s
  | _ => None
  end.

(** Lines 64-69. *)
Definition WUnlock (t : tid) (l : loc) (s : State) : option State :=
  match l with
  | WU65 => lock t WU67 s
  | WU67 => Some (goto t (At WU68) (set_writer_entered_ false s))
  | WU68 => goto t (At WU69) <$> notify_all reader_ s
  | WU69 => unlock t Idle s
  | _ => None
  end.

(** Lines 74-81. *)
Definition RLock (t : tid) (l : loc) (s : State) : option State :=
  match l with
  | RL75 => lock t RL77 s
  | RL77 => if writer_entered_ s || (reader_count_ s =? MAX_READERS)
            then wait reader_ t RL77 s
            else Some (goto t (At RL80) s)
  | RL80 => Some (goto t (At RL81) (set_reader_count_ (wrap32 (reader_count_ s + 1)) s))
  | RL81 => unlock t Reading s
  | _ => None
  end.

(** Lines 86-100. *)
Definition RUnlock (t pick : tid) (l : loc) (s : State) : option State :=
  match l with
  | RU87 => lock t RU88 s
  | RU88 => Some (goto t (At RU89) (set_reader_count_ (wrap32 (reader_count_ s - 1)) s))
  | RU89 => Some (goto t (At (if writer_entered_ s then RU92 else RU96)) s)
  | RU92 => Some (goto t (At (if reader_count_ s =? 0 then RU93 else RU100)) s)
  | RU93 => goto t (At RU100) <$> notify_one writer_ pick s
  | RU96 => Some (goto t (At (if reader_count_ s =? MAX_READERS - 1 then RU97 else RU100)) s)
  | RU97 => goto t (At RU100) <$> notify_one reader_ pick s
  | RU100 => unlock t Idle s
  | _ => None
  end.

(** Line 33: the destructor takes [mutex_], drops it at its closing brace,
    and the members are destroyed. *)
Definition destructor (s : State) : option State :=
  match object s with
  | Alive =>
      match mutex_ s with
      | None => Some (set_object Finalizing (set_mutex_ (Some Destructor) s))
      | Some _ => None
      end
  | Finalizing => Some (set_object Destroyed (set_mutex_ None s))
  | Destroyed => None
  end.

(** ** Scheduling *)

Definition method_of (l : loc) : method :=
  match l with
  | WL45 | WL50 | WL54 | WL56 | WL59 => mWLock
  | WU65 | WU67 | WU68 | WU69 => mWUnlock
  | RL75 | RL77 | RL80 | RL81 => mRLock
  | RU87 | RU88 | RU89 | RU92 | RU93 | RU96 | RU97 | RU100 => mRUnlock
  end.

Definition entry (m : method) : loc :=
  match m with
  | mWLock => WL45
  | mWUnlock => WU65
  | mRLock => RL75
  | mRUnlock => RU87
  end.

Inductive event :=
  | Call (t : tid) (m : method)   (* a thread in client code enters [m] *)
  | Step (t : tid) (pick : tid)   (* a thread executes its next statement *)
  | Spurious (t : tid)            (* a parked thread wakes without a notification *)
  | Dtor.                         (* the destructor advances *)

Definition statement (t pick : tid) (l : loc) (s : State) : option State :=
  match method_of l with
  | mWLock => WLock t l s
  | mWUnlock => WUnlock t l s
  | mRLock => RLock t l s
  | mRUnlock => RUnlock t pick l s
  end.

(** One event.  [None]: the event is not enabled (the thread is blocked, or
    there is no such thread).  Nothing stops a thread once the destructor
    has returned: a call that was entered before goes on and reads and
    writes the members of the destroyed object (the members keep their
    values here; the language leaves the behaviour undefined). *)
Definition exec (e : event) (s : State) : option State :=
  match e with
  | Call t m =>
      match pcs s !! t with
      | Some (Rest _) => Some (goto t (At (entry m)) s)
      | _ => None
      end
  | Step t pick =>
      match pcs s !! t with
      | Some (At l) => statement t pick l s
      | Some (Relock l) => lock t l s
      | _ => None
      end
  | Spurious t =>
      match pcs s !! t with
      | Some (Waiting cv l) => Some (goto t (Relock l) s)
      | _ => None
      end
  | Dtor => destructor s
  end.

(** The caller's obligations (not checked by the code): a thread acquires only
    when it holds nothing and releases only what it holds. *)
Definition contract (e : event) (s : State) : bool :=
  match e with
  | Call t m =>
      match m, pcs s !! t with
      | mWLock, Some (Rest Idle) => true
      | mRLock, Some (Rest Idle) => true
      | mWUnlock, Some (Rest Writing) => true
      | mRUnlock, Some (Rest Reading) => true
      | _, _ => false
      end
  | _ => true
  end.

(** A schedule: the events are executed in order, each one only if [ok]
    allows it in the state it meets. *)
Fixpoint run_with (ok : event → State → bool) (tr : list event) (s : State)
  : option State :=
  match tr with
  | [] => Some s
  | e :: tr' => if ok e s then exec e s ≫= run_with ok tr' else None
  end.

(** Any callers, and callers that honour the contract. *)
Definition run : list event → State → option State := run_with (λ _ _, true).
Definition run_ok : list event → State → option State := run_with contract.

(** States of an [n]-thread program whose callers honour the contract. *)
Definition reachable (n : nat) (s : State) : Prop :=
  ∃ tr, run_ok tr (init n) = Some s.

(** Thread [w] clears [writer_entered_] (line 67) with this event. *)
Definition releases (w : tid) (e : event) (s : State) : bool :=
  match e with
  | Step t _ => bool_decide (t = w) && bool_decide (pcs s !! w = Some (At WU67))
  | _ => false
  end.

(** Schedules of contract-abiding callers during which [w] does not get to
    line 67. *)
Definition run_before_release (w : tid) : list event → State → option State :=
  run_with (λ e s, contract e s && negb (releases w e s)).

(** ** One thread running on its own *)

(** Thread [t] executes statements until it is back in client code or parked
    in a [wait]; the longest path through a method has six statements. *)
Fixpoint solo (k : nat) (t pick : tid) (s : State) : option State :=
  match k with
  | O => Some s
  | S k' =>
      match pcs s !! t with
      | Some (At _) | Some (Relock _) => exec (Step t pick) s ≫= solo k' t pick
      | _ => Some s
      end
  end.

(** A whole call of method [m] by [t], up to its return or its first [wait]. *)
Definition call (t : tid) (m : method) (pick : tid) (s : State) : option State :=
  exec (Call t m) s ≫= solo 8 t pick.

(** A woken thread takes the mutex again and carries on, up to its return or
    its next [wait]. *)
Definition resume (t pick : tid) (s : State) : option State := solo 8 t pick s.

(** ** Control flow *)

(** Where a thread at [p] can be after its own next move. *)
Definition next (p : pc) : list pc :=
  match p with
  | Rest _ => [At WL45; At WU65; At RL75; At RU87]
  | Waiting _ l => [Relock l]
  | Relock l => [At l]
  | At l =>
      match l with
      | WL45 => [At WL50]
      | WL50 => [Waiting reader_ WL50; At WL54]
      | WL54 => [At WL56]
      | WL56 => [Waiting writer_ WL56; At WL59]
      | WL59 => [Rest Writing]
      | WU65 => [At WU67]
      | WU67 => [At WU68]
      | WU68 => [At WU69]
      | WU69 => [Rest Idle]
      | RL75 => [At RL77]
      | RL77 => [Waiting reader_ RL77; At RL80]
      | RL80 => [At RL81]
      | RL81 => [Rest Reading]
      | RU87 => [At RU88]
      | RU88 => [At RU89]
      | RU89 => [At RU92; At RU96]
      | RU92 => [At RU93; At RU100]
      | RU93 => [At RU100]
      | RU96 => [At RU97; At RU100]
      | RU97 => [At RU100]
      | RU100 => [Rest Idle]
      end
  end.

(** The method an event belongs to, if it is a thread's move inside one. *)
Definition acting (e : event) (s : State) : option method :=
  match e with
  | Call _ m => Some m
  | Step t _ =>
      match pcs s !! t with
      | Some (At l) | Some (Relock l) => Some (method_of l)
      | _ => None
      end
  | Spurious t =>
      match pcs s !! t with
      | Some (Waiting _ l) => Some (method_of l)
      | _ => None
      end
  | Dtor => None
  end.

(** ** Classes of program counters *)

(** Threads accounted for in [reader_count_]: line 80 done, line 88 not yet. *)
Definition counted (p : pc) : bool :=
  match p with
  | At RL81 | Rest Reading | At RU87 | At RU88 => true
  | _ => false
  end.

(** The writer that set [writer_entered_] at line 54 and has not yet cleared
    it at line 67. *)
Definition announced (p : pc) : bool :=
  match p with
  | At WL56 | Waiting _ WL56 | Relock WL56
  | At WL59 | Rest Writing | At WU65 | At WU67 => true
  | _ => false
  end.

(** An announced writer still inside the loop of line 56. *)
Definition draining (p : pc) : bool :=
  match p with
  | At WL56 | Waiting _ WL56 | Relock WL56 => true
  | _ => false
  end.

(** An announced writer that has left the loop of line 56. *)
Definition drained (p : pc) : bool :=
  match p with
  | At WL59 | Rest Writing | At WU65 | At WU67 => true
  | _ => false
  end.

(** Statements executed with [mutex_] held. *)
Definition in_mutex (p : pc) : bool :=
  match p with
  | At l =>
      match l with
      | WL45 | WU65 | RL75 | RU87 => false
      | _ => true
      end
  | _ => false
  end.

(** The only places where a thread parks. *)
Definition wait_site (cv : cond) (l : loc) : bool :=
  match cv, l with
  | reader_, WL50 | writer_, WL56 | reader_, RL77 => true
  | _, _ => false
  end.

Definition loop_head (l : loc) : bool :=
  match l with
  | WL50 | WL56 | RL77 => true
  | _ => false
  end.

Fixpoint count (P : pc → bool) (l : list pc) : nat :=
  match l with
  | [] => 0%nat
  | p :: l' => ((if P p then 1 else 0) + count P l')%nat
  end.

Definition bit (b : bool) : nat := if b then 1%nat else 0%nat.

(** What is known of the shared fields when a thread is about to execute [l]. *)
Definition assertion (l : loc) (s : State) : Prop :=
  match l with
  | WL54 => writer_entered_ s = false
  | RL80 => writer_entered_ s = false ∧ reader_count_ s < MAX_READERS
  | RU92 => writer_entered_ s = true
  | RU93 => writer_entered_ s = true ∧ reader_count_ s = 0
  | RU96 => writer_entered_ s = false
  | RU97 => writer_entered_ s = false ∧ reader_count_ s = MAX_READERS - 1
  | WU68 | WU69 => writer_entered_ s = false
  | _ => True
  end.

Definition well_formed (p : pc) : bool :=
  match p with
  | Waiting cv l => wait_site cv l
  | Relock l => loop_head l
  | _ => true
  end.

(** ** The invariant of the latch *)

Record inv (s : State) : Prop := {
  inv_range : 0 ≤ reader_count_ s ≤ MAX_READERS;
  inv_readers : reader_count_ s = Z.of_nat (count counted (pcs s));
  inv_writer :
    count announced (pcs s) = (if writer_entered_ s then 1 else 0)%nat;
  inv_drained :
    ∀ t p, pcs s !! t = Some p → drained p = true → reader_count_ s = 0;
  inv_mutex :
    ∀ t p, pcs s !! t = Some p → in_mutex p = true → mutex_ s = Some (Thread t);
  inv_owner :
    ∀ t, mutex_ s = Some (Thread t) →
         ∃ p, pcs s !! t = Some p ∧ in_mutex p = true;
  inv_dtor : mutex_ s = Some Destructor ↔ object s = Finalizing;
  inv_local : ∀ t l, pcs s !! t = Some (At l) → assertion l s;
  inv_wf : ∀ t p, pcs s !! t = Some p → well_formed p = true;
  inv_queue :
    ∀ t cv, pcs s !! t = Some (Waiting cv WL50) →
            writer_entered_ s = true ∨ ∃ u, pcs s !! u = Some (At WU68)
}.

(** ** Several calls in a row *)

(** The threads [ts] call [m] one after the other, each call running up to
    its return or its first [wait]. *)
Fixpoint calls (m : method) (ts : list tid) (s : State) : option State :=
  match ts with
  | [] => Some s
  | t :: ts' => call t m t s ≫= calls m ts'
  end.

(** Every thread of [ts] is now at [p]. *)
Definition all_at (p : pc) (ts : list tid) (l : list pc) : list pc :=
  foldl (λ l t, <[t := p]> l) l ts.

(** ** Observing a notification *)

(** Between [s] and [s'], apart from the caller [t]: one [notify_one] on [cv]
    was issued, and it woke [pick], which was parked on [cv] in the loop at
    [l], and nobody else; or nobody at all because [cv] had no waiter. *)
Definition woke_one (cv : cond) (l : loc) (pick t : tid) (s s' : State) : Prop :=
  signals s' = signals s ++ [notified_one cv] ∧
  (((∀ r p, pcs s !! r = Some p → waiting_on cv p = false) ∧
    ∀ r, r ≠ t → pcs s' !! r = pcs s !! r)
   ∨ (pcs s !! pick = Some (Waiting cv l) ∧
      pcs s' !! pick = Some (Relock l) ∧
      ∀ r, r ≠ t → r ≠ pick → pcs s' !! r = pcs s !! r)).

(** No notification was issued and no other thread moved. *)
Definition woke_none (t : tid) (s s' : State) : Prop :=
  signals s' = signals s ∧ ∀ r, r ≠ t → pcs s' !! r = pcs s !! r.

(** ** Modes *)

(** The field a method of the other mode leaves alone. *)
Definition untouched (m : method) (s s' : State) : Prop :=
  match m with
  | mRLock | mRUnlock => writer_entered_ s' = writer_entered_ s
  | mWLock | mWUnlock => reader_count_ s' = reader_count_ s
  end.

(** The thread is inside method [m], or outside any statement. *)
Definition inside (m : method) (p : pc) : Prop :=
  match p with
  | At l | Relock l => method_of l = m
  | _ => True
  end.

(** ** A schedule of three threads

    Thread 0 reads; thread 1 asks to write and has to drain; thread 0 stops
    reading and wakes thread 1, which then writes.  Thread 2 stays out. *)
Definition reads : list event :=
  [Call 0 mRLock; Step 0 0; Step 0 0; Step 0 0; Step 0 0].

Definition announces : list event :=
  reads ++ [Call 1 mWLock; Step 1 1; Step 1 1; Step 1 1; Step 1 1].

Definition releasing : list event :=
  announces ++ [Call 0 mRUnlock; Step 0 1].

Definition reader_then_writer : list event :=
  announces
  ++ [Call 0 mRUnlock; Step 0 1; Step 0 1; Step 0 1; Step 0 1; Step 0 1; Step 0 1]
  ++ [Step 1 1; Step 1 1; Step 1 1].

Definition reading_state : State :=
  mkState None 1 false [Rest Reading; Rest Idle; Rest Idle] Alive [].

Definition draining_state : State :=
  mkState None 1 true [Rest Reading; Waiting writer_ WL56; Rest Idle] Alive [].

Definition releasing_state : State :=
  mkState (Some (Thread 0)) 1 true [At RU88; Waiting writer_ WL56; Rest Idle] Alive [].

Definition writing_state : State :=
  mkState None 0 true [Rest Idle; Rest Writing; Rest Idle] Alive
          [notified_one writer_].

(** Thread 2 asks to read while thread 1 is draining. *)
Definition late_reader : list event := [Call 2 mRLock; Step 2 2; Step 2 2].

Definition refused_state : State :=
  mkState None 1 true [Rest Reading; Waiting writer_ WL56; Waiting reader_ RL77]
          Alive [].

(** Thread 0 releases a read latch it never took. *)
Definition unmatched_release : list event :=
  [Call 0 mRUnlock; Step 0 0; Step 0 0; Step 0 0; Step 0 0; Step 0 0].

(** Thread 0 about to execute line 80, and just after. *)
Definition incrementing_state : State :=
  mkState (Some (Thread 0)) 0 false [At RL80; Rest Idle; Rest Idle] Alive [].

Definition incremented_state : State :=
  mkState (Some (Thread 0)) 1 false [At RL81; Rest Idle; Rest Idle] Alive [].

(** ** Further notions *)

(** Where the statement at [l] sends the thread that executes it in [s]. *)
Definition target (l : loc) (s : State) : pc :=
  match l with
  | WL45 => At WL50
  | WL50 => if writer_entered_ s then Waiting reader_ WL50 else At WL54
  | WL54 => At WL56
  | WL56 => if 0 <? reader_count_ s then Waiting writer_ WL56 else At WL59
  | WL59 => Rest Writing
  | WU65 => At WU67
  | WU67 => At WU68
  | WU68 => At WU69
  | WU69 => Rest Idle
  | RL75 => At RL77
  | RL77 => if writer_entered_ s || (reader_count_ s =? MAX_READERS)
            then Waiting reader_ RL77 else At RL80
  | RL80 => At RL81
  | RL81 => Rest Reading
  | RU87 => At RU88
  | RU88 => At RU89
  | RU89 => At (if writer_entered_ s then RU92 else RU96)
  | RU92 => At (if reader_count_ s =? 0 then RU93 else RU100)
  | RU93 => At RU100
  | RU96 => At (if reader_count_ s =? MAX_READERS - 1 then RU97 else RU100)
  | RU97 => At RU100
  | RU100 => Rest Idle
  end.

(** The condition under which the loop at [l] waits. *)
Definition waits (l : loc) (s : State) : bool :=
  match l with
  | WL50 => writer_entered_ s
  | WL56 => 0 <? reader_count_ s
  | RL77 => writer_entered_ s || (reader_count_ s =? MAX_READERS)
  | _ => false
  end.

(** A reader that has decremented [reader_count_] and is on its way to the
    [notify_one] of line 93. *)
Definition notifying (p : pc) : bool :=
  match p with
  | At RU89 | At RU92 | At RU93 => true
  | _ => false
  end.

(** [writer_entered_] is set but no thread is the writer that could clear
    it, and no thread is past the first loop of [WLock] or the loop of
    [RLock]. *)
Definition stuck (s : State) : Prop :=
  writer_entered_ s = true ∧
  ∀ t p, pcs s !! t = Some p →
         announced p = false ∧ p ≠ At WL54 ∧ p ≠ At RL80 ∧ well_formed p = true.

(** Inside [WLock] or [RLock], not past the first loop. *)
Definition entering (p : pc) : bool :=
  match p with
  | At WL45 | At WL50 | Waiting _ WL50 | Relock WL50
  | At RL75 | At RL77 | Waiting _ RL77 | Relock RL77 => true
  | _ => false
  end.

(** ** More example states *)

(** Thread 2 asks to write while thread 1 is draining. *)
Definition queues : list event :=
  announces ++ [Call 2 mWLock; Step 2 2; Step 2 2].

Definition queued_state : State :=
  mkState None 1 true [Rest Reading; Waiting writer_ WL56; Waiting reader_ WL50]
          Alive [].

Definition refuses : list event := announces ++ late_reader.

(** Thread 1, which holds the write latch, has called [WLock] again. *)
Definition reentering_state : State := goto 1 (At WL45) writing_state.

Definition reentered_state : State :=
  mkState None 0 true [Rest Idle; Waiting reader_ WL50; Rest Idle] Alive
          [notified_one writer_].

(** The counter at the cap (here after an unmatched release) and two readers
    parked. *)
Definition fills : list event :=
  unmatched_release
  ++ [Call 2 mRLock; Step 2 2; Step 2 2; Call 3 mRLock; Step 3 3; Step 3 3].

Definition full_state : State :=
  mkState None MAX_READERS false
          [Rest Idle; Rest Idle; Waiting reader_ RL77; Waiting reader_ RL77]
          Alive [].

(** Thread 1 writes; thread 0 asks to read and thread 2 asks to write, and
    both park on [reader_]. *)
Definition contended : list event :=
  [Call 1 mWLock; Step 1 1; Step 1 1; Step 1 1; Step 1 1; Step 1 1;
   Call 0 mRLock; Step 0 0; Step 0 0; Call 2 mWLock; Step 2 2; Step 2 2].

Definition contended_state : State :=
  mkState None 0 true [Waiting reader_ RL77; Rest Writing; Waiting reader_ WL50]
          Alive [].

(** ** The destructor and a release call

    Thread 0 reads and calls [RUnlock]; it has not reached the guard of
    line 87 yet. *)
Definition enters : list event := reads ++ [Call 0 mRUnlock].

Definition entered_state : State :=
  mkState None 1 false [At RU87; Rest Idle; Rest Idle] Alive [].

(** The destructor takes [mutex_] first, and thread 0 calls [RUnlock] while
    the destructor holds it. *)
Definition overtaking : list event := reads ++ [Dtor; Call 0 mRUnlock].

Definition finalizing_state : State :=
  mkState (Some Destructor) 1 false [At RU87; Rest Idle; Rest Idle] Finalizing [].

(** The destructor has returned; thread 0 is still in [RUnlock]. *)
Definition overtaken_state : State :=
  mkState None 1 false [At RU87; Rest Idle; Rest Idle] Destroyed [].

(** Thread 0 has executed lines 87 and 88 on the destroyed latch. *)
Definition posthumous_state : State :=
  mkState (Some (Thread 0)) 0 false [At RU89; Rest Idle; Rest Idle] Destroyed [].

(** * Proofs *)

(** Events are unfolded by hand, where a proof looks inside one. *)
#[local] Arguments exec : simpl never.

(** ** Counting threads *)

Section Counting.
Variable P : pc → bool.

Lemma count_insert (l : list pc) (t : nat) (p q : pc) :
  l !! t = Some p →
  (count P (<[t := q]> l) + bit (P p) = count P l + bit (P q))%nat.
Proof.
  revert t. induction l as [|a l IH]; intros [|t] Hl; simplify_eq/=.
  - unfold bit. destruct (P p), (P q); lia.
  - specialize (IH _ Hl). lia.
Qed.

Lemma count_fmap (f : pc → pc) (l : list pc) :
  (∀ p, P (f p) = P p) → count P (f <$> l) = count P l.
Proof.
  intros Hf. induction l as [|a l IH]; simpl; [done|].
  rewrite Hf. f_equal. exact IH.
Qed.

Lemma count_pos (l : list pc) (t : nat) (p : pc) :
  l !! t = Some p → P p = true → (0 < count P l)%nat.
Proof.
  revert t. induction l as [|a l IH]; intros [|t] Hl Hp; simplify_eq/=.
  - rewrite Hp. lia.
  - specialize (IH _ Hl Hp). lia.
Qed.

Lemma count_zero (l : list pc) (t : nat) (p : pc) :
  count P l = 0%nat → l !! t = Some p → P p = false.
Proof.
  intros H0 Hl. destruct (P p) eqn:Hp; [|done].
  pose proof (count_pos l t p Hl Hp). lia.
Qed.

Lemma count_unique (l : list pc) (t1 t2 : nat) (p1 p2 : pc) :
  (count P l ≤ 1)%nat →
  l !! t1 = Some p1 → P p1 = true →
  l !! t2 = Some p2 → P p2 = true →
  t1 = t2.
Proof.
  revert t1 t2. induction l as [|a l IH]; intros [|t1] [|t2] Hc H1 Hp1 H2 Hp2;
    simplify_eq/=; try done.
  - rewrite Hp1 in Hc. pose proof (count_pos l t2 p2 H2 Hp2). lia.
  - rewrite Hp2 in Hc. pose proof (count_pos l t1 p1 H1 Hp1). lia.
  - f_equal. eapply IH; eauto. lia.
Qed.

Lemma count_replicate (n : nat) (p : pc) :
  P p = false → count P (replicate n p) = 0%nat.
Proof. intros Hp. induction n as [|n IH]; simpl; [done|]. by rewrite Hp, IH. Qed.

Lemma count_exists (l : list pc) :
  (0 < count P l)%nat → ∃ t p, l !! t = Some p ∧ P p = true.
Proof.
  induction l as [|a l IH]; simpl; [lia|].
  destruct (P a) eqn:Ha.
  - intros _. by exists 0%nat, a.
  - intros H. destruct IH as (t & p & Hl & Hp); [lia|]. by exists (S t), p.
Qed.
End Counting.

(** ** The invariant holds in every reachable state *)

Lemma wrap32_small z : 0 ≤ z < 2 ^ 32 → wrap32 z = z.
Proof. intros. unfold wrap32. by apply Z.mod_small. Qed.

Lemma drained_announced p : drained p = true → announced p = true.
Proof. by destruct p as [[]|[]|? []|[]]. Qed.

Lemma init_inv n : inv (init n).
Proof.
  split; simpl.
  - unfold MAX_READERS. lia.
  - by rewrite count_replicate.
  - by rewrite count_replicate.
  - intros t p [-> _]%lookup_replicate. done.
  - intros t p [-> _]%lookup_replicate. done.
  - done.
  - split; done.
  - intros t l [? _]%lookup_replicate. done.
  - intros t p [-> _]%lookup_replicate. done.
  - intros t cv [? _]%lookup_replicate. done.
Qed.

Lemma assertion_shared l s s' :
  writer_entered_ s' = writer_entered_ s →
  reader_count_ s' = reader_count_ s →
  assertion l s → assertion l s'.
Proof. intros Hw Hc. destruct l; simpl; rewrite ?Hw, ?Hc; done. Qed.

(** The proof that one event preserves [inv] is the same for almost every
    statement: the thread [t] that moves is at a known place, every other
    thread is where it was.  [mover] collects what the invariant says about
    [t], [other] what it says about another thread, [fields] splits [inv] of
    the new state and closes each field with [finish]. *)
Ltac mover Hinv Ht q :=
  pose proof (inv_range _ Hinv);
  pose proof (inv_readers _ Hinv);
  pose proof (inv_writer _ Hinv);
  pose proof (inv_drained _ Hinv _ _ Ht);
  pose proof (inv_mutex _ Hinv _ _ Ht);
  try pose proof (inv_local _ Hinv _ _ Ht);
  pose proof (inv_wf _ Hinv _ _ Ht);
  pose proof (inv_dtor _ Hinv);
  pose proof (inv_owner _ Hinv);
  pose proof (count_pos counted _ _ _ Ht);
  pose proof (count_pos announced _ _ _ Ht);
  pose proof (count_insert counted _ _ _ q Ht);
  pose proof (count_insert announced _ _ _ q Ht);
  unfold MAX_READERS in *;
  simpl in *.

Ltac other Hinv p' Hl :=
  pose proof (inv_drained _ Hinv _ _ Hl);
  pose proof (inv_mutex _ Hinv _ _ Hl);
  pose proof (inv_wf _ Hinv _ _ Hl);
  pose proof (count_pos announced _ _ _ Hl);
  pose proof (drained_announced p').

Ltac split_thread t Ht t' Hl tac1 tac2 :=
  destruct (decide (t' = t)) as [->|?];
  [ rewrite list_lookup_insert_eq in Hl by (eapply lookup_lt_Some; exact Ht);
    simplify_eq; tac1
  | rewrite list_lookup_insert_ne in Hl by done; tac2 ].

Ltac finish :=
  simpl; unfold MAX_READERS in *;
  repeat match goal with
  | H : true = true → _ |- _ => specialize (H eq_refl)
  | H : false = true → _ |- _ => clear H
  | H : ?P → _, H' : ?P |- _ =>
      match type of P with Prop => specialize (H H') end
  | H : _ || _ = false |- _ => apply orb_false_iff in H; destruct H
  | H : _ || _ = true |- _ => apply orb_true_iff in H
  | H : (_ =? _) = true |- _ => apply Z.eqb_eq in H
  | H : (_ =? _) = false |- _ => apply Z.eqb_neq in H
  | H : (_ <? _) = true |- _ => apply Z.ltb_lt in H
  | H : (_ <? _) = false |- _ => apply Z.ltb_ge in H
  | H : _ ∧ _ |- _ => destruct H
  end;
  rewrite ?wrap32_small by lia;
  try done; try lia; try congruence; try (intuition congruence);
  try (split; (done || lia || congruence));
  try (destruct (writer_entered_ _); simplify_eq/=; lia).

Ltac by_cases :=
  repeat match goal with
  | x : loc |- _ => destruct x
  | x : cond |- _ => destruct x
  end; simpl in *; finish.

(* a thread other than [t] parked at line 52 *)
Ltac queue Hinv t Ht Hl :=
  first
  [ exfalso;
    match goal with
    | Hno : ∀ t0 cv0, _ !! t0 ≠ Some (Waiting cv0 WL50) |- _ => by eapply Hno
    end
  | let Hf := fresh "Hf" in let u := fresh "u" in let Hu := fresh "Hu" in
    destruct (inv_queue _ Hinv _ _ Hl) as [Hf|[u Hu]];
    [ first
      [ left; (done || congruence)
      | right; exists t; apply list_lookup_insert_eq; eapply lookup_lt_Some; exact Ht ]
    | first
      [ left; done
      | right; exists u; rewrite list_lookup_insert_ne;
        [exact Hu | intros ->; congruence] ] ] ].

Ltac fields Hinv t Ht :=
  split; simpl;
  [ finish
  | finish
  | finish
  | let t' := fresh "t'" in let p' := fresh "p'" in let Hl := fresh "Hl" in
    intros t' p' Hl ?; split_thread t Ht t' Hl ltac:(finish) ltac:(other Hinv p' Hl; finish)
  | let t' := fresh "t'" in let p' := fresh "p'" in let Hl := fresh "Hl" in
    intros t' p' Hl ?; split_thread t Ht t' Hl ltac:(finish) ltac:(other Hinv p' Hl; finish)
  | let t' := fresh "t'" in let Ho := fresh "Ho" in
    intros t' Ho; try done;
    match goal with
    | Ho : Some (Thread _) = Some (Thread _) |- _ =>
        simplify_eq; eexists; split; [apply list_lookup_insert_eq; eapply lookup_lt_Some; exact Ht | try done]
    | H : ∀ t0, mutex_ _ = Some (Thread t0) → _ |- _ =>
        let p := fresh "p" in let Hp := fresh "Hp" in let Hm := fresh "Hm" in
        destruct (H _ Ho) as (p & Hp & Hm);
        destruct (decide (t' = t)) as [->|?];
        [ eexists; split; [apply list_lookup_insert_eq; eapply lookup_lt_Some; exact Ht | simplify_eq; finish ]
        | exists p; split; [by rewrite list_lookup_insert_ne by done | done] ]
    end
  | finish
  | let t' := fresh "t'" in let l' := fresh "l'" in let Hl := fresh "Hl" in
    intros t' l' Hl; split_thread t Ht t' Hl ltac:(finish)
     ltac:(first [ eapply assertion_shared; [| |eapply (inv_local _ Hinv); eauto]; done
            | pose proof (inv_mutex _ Hinv _ _ Hl); pose proof (inv_local _ Hinv _ _ Hl);
              destruct l'; simpl in *; finish ])
  | let t' := fresh "t'" in let p' := fresh "p'" in let Hl := fresh "Hl" in
    intros t' p' Hl; split_thread t Ht t' Hl ltac:(finish) ltac:(other Hinv p' Hl; finish)
  | let t' := fresh "t'" in let cv' := fresh "cv'" in let Hl := fresh "Hl" in
    intros t' cv' Hl;
    split_thread t Ht t' Hl ltac:(try (by left)) ltac:(queue Hinv t Ht Hl)
  ].

Lemma lock_free s t l s' :
  lock t l s = Some s' →
  mutex_ s = None ∧ s' = goto t (At l) (set_mutex_ (Some (Thread t)) s).
Proof. unfold lock. destruct (mutex_ s); naive_solver. Qed.


Lemma wake_on_counted cv p : counted (wake_on cv p) = counted p.
Proof. unfold wake_on. by destruct p as [[]|[]|? []|[]]; simpl; try case_bool_decide. Qed.
Lemma wake_on_announced cv p : announced (wake_on cv p) = announced p.
Proof. unfold wake_on. by destruct p as [[]|[]|? []|[]]; simpl; try case_bool_decide. Qed.
Lemma wake_on_drained cv p : drained (wake_on cv p) = drained p.
Proof. unfold wake_on. by destruct p as [[]|[]|? []|[]]; simpl; try case_bool_decide. Qed.
Lemma wake_on_in_mutex cv p : in_mutex (wake_on cv p) = in_mutex p.
Proof. unfold wake_on. by destruct p as [[]|[]|? []|[]]; simpl; try case_bool_decide. Qed.
Lemma wake_on_well_formed cv p :
  well_formed p = true → well_formed (wake_on cv p) = true.
Proof. unfold wake_on. by destruct p as [[]|[]|[] []|[]]; simpl; try case_bool_decide. Qed.
Lemma wake_on_At cv p l : wake_on cv p = At l → p = At l.
Proof. unfold wake_on. by destruct p; simpl; try case_bool_decide. Qed.

Lemma inv_notify_all s cv :
  inv s → inv (emit (notified_all cv) (set_pcs (wake_on cv <$> pcs s) s)).
Proof.
  intros Hinv. split; simpl.
  - apply Hinv.
  - rewrite count_fmap by apply wake_on_counted. apply Hinv.
  - rewrite count_fmap by apply wake_on_announced. apply Hinv.
  - intros t p Hl. rewrite list_lookup_fmap in Hl.
    destruct (pcs s !! t) as [p0|] eqn:Hp0; simplify_eq/=.
    rewrite wake_on_drained. by apply (inv_drained _ Hinv t).
  - intros t p Hl. rewrite list_lookup_fmap in Hl.
    destruct (pcs s !! t) as [p0|] eqn:Hp0; simplify_eq/=.
    rewrite wake_on_in_mutex. by apply (inv_mutex _ Hinv t).
  - intros t Ho. destruct (inv_owner _ Hinv t Ho) as (p & Hp & Hm).
    exists (wake_on cv p). rewrite list_lookup_fmap, Hp, wake_on_in_mutex. done.
  - apply Hinv.
  - intros t l Hl. rewrite list_lookup_fmap in Hl.
    destruct (pcs s !! t) as [p0|] eqn:Hp0; simplify_eq/=.
    apply wake_on_At in Hl as ->.
    eapply assertion_shared; [| |eapply (inv_local _ Hinv); eauto]; done.
  - intros t p Hl. rewrite list_lookup_fmap in Hl.
    destruct (pcs s !! t) as [p0|] eqn:Hp0; simplify_eq/=.
    apply wake_on_well_formed. by apply (inv_wf _ Hinv t).
  - intros t cv' Hl. rewrite list_lookup_fmap in Hl.
    destruct (pcs s !! t) as [p0|] eqn:Hp0; simplify_eq/=.
    assert (p0 = Waiting cv' WL50) as ->.
    { revert Hl. unfold wake_on. destruct p0; simpl; try done. by case_bool_decide. }
    destruct (inv_queue _ Hinv _ _ Hp0) as [?|[u Hu]]; [by left|].
    right. exists u. by rewrite list_lookup_fmap, Hu.
Qed.

Lemma inv_wake s t cv l g :
  inv s → pcs s !! t = Some (Waiting cv l) → inv (emit g (goto t (Relock l) s)).
Proof. intros Hinv Ht. mover Hinv Ht (Relock l). fields Hinv t Ht; by_cases. Qed.

Lemma inv_emit s g : inv s → inv (emit g s).
Proof. intros []. by split. Qed.

Lemma inv_notify_one s cv pick s' :
  inv s → notify_one cv pick s = Some s' → inv s'.
Proof.
  intros Hinv. unfold notify_one. repeat case_match; intros; simplify_eq.
  - destruct p; try done. by apply inv_wake with cv0.
  - by apply inv_emit.
Qed.

Lemma notify_one_shared s cv pick s' t l :
  notify_one cv pick s = Some s' →
  pcs s !! t = Some (At l) →
  pcs s' !! t = Some (At l) ∧ reader_count_ s' = reader_count_ s ∧
  writer_entered_ s' = writer_entered_ s ∧ mutex_ s' = mutex_ s ∧ object s' = object s.
Proof.
  unfold notify_one. repeat case_match; intros; simplify_eq/=; try done.
  split; [|done]. rewrite list_lookup_insert_ne; [done|]. intros ->.
  destruct p; naive_solver.
Qed.


Lemma inv_notified s t l :
  inv s → pcs s !! t = Some (At l) →
  l = RU93 ∨ l = RU97 →
  inv (goto t (At RU100) s).
Proof.
  intros Hinv Ht [-> | ->]; mover Hinv Ht (At RU100); fields Hinv t Ht.
Qed.

(** After the [notify_all] of line 68 nobody is parked at line 52 any more. *)
Lemma inv_notified_all s t :
  inv s → pcs s !! t = Some (At WU68) →
  (∀ t' cv, pcs s !! t' ≠ Some (Waiting cv WL50)) →
  inv (goto t (At WU69) s).
Proof. intros Hinv Ht Hno. mover Hinv Ht (At WU69). fields Hinv t Ht. Qed.

Lemma inv_statement s t c l s' :
  inv s → pcs s !! t = Some (At l) → statement t c l s = Some s' → inv s'.
Proof.
  intros Hinv Ht.
  unfold statement, WLock, WUnlock, RLock, RUnlock, wait, unlock; destruct l; simpl;
  repeat case_match; try (intros [H1 ->]%lock_free); try (intros [= <-]);
  (match goal with |- inv (goto _ ?q _) => mover Hinv Ht q | _ => idtac end); simplify_eq/=.
  all: try (fields Hinv t Ht).
  - apply inv_notified_all; [by apply inv_notify_all| |]; simpl.
    + by rewrite list_lookup_fmap, Ht.
    + intros t' cv. rewrite list_lookup_fmap.
      destruct (pcs s !! t') as [p0|] eqn:Hp0; [simpl|done]. intros [= Hp].
      pose proof (inv_wf _ Hinv _ _ Hp0) as Hwf. revert Hp. unfold wake_on.
      destruct p0 as [| |[] []|]; simpl in *; try done.
  - destruct (notify_one writer_ c s) as [s1|] eqn:Hn; intros; simplify_eq/=.
    destruct (notify_one_shared _ _ _ _ _ _ Hn Ht) as (Ht' & _).
    apply (inv_notified _ _ RU93); [|done|tauto]. by eapply inv_notify_one.
  - destruct (notify_one reader_ c s) as [s1|] eqn:Hn; intros; simplify_eq/=.
    destruct (notify_one_shared _ _ _ _ _ _ Hn Ht) as (Ht' & _).
    apply (inv_notified _ _ RU97); [|done|tauto]. by eapply inv_notify_one.
Qed.

(** Every event of a contract-abiding caller preserves the invariant. *)
Lemma inv_exec e s s' :
  inv s → contract e s = true → exec e s = Some s' → inv s'.
Proof.
  intros Hinv Hc. unfold exec.
  destruct e as [t m|t c|t|]; simpl in *.
  - destruct (pcs s !! t) as [[h| | |]|] eqn:Ht; try done. intros [= <-].
    destruct m, h; try done;
      match goal with |- inv (goto _ ?q _) => mover Hinv Ht q end; fields Hinv t Ht.
  - destruct (pcs s !! t) as [[h|l|cv l|l]|] eqn:Ht; try done.
    + by apply inv_statement.
    + intros [H1 ->]%lock_free. mover Hinv Ht (At l). fields Hinv t Ht; by_cases.
  - destruct (pcs s !! t) as [[h|l|cv l|l]|] eqn:Ht; try done. intros [= <-].
    mover Hinv Ht (Relock l). fields Hinv t Ht; by_cases.
  - unfold destructor. pose proof (inv_dtor _ Hinv) as Hd.
    destruct (object s) eqn:Ho; [destruct (mutex_ s) eqn:Hm; [done|]| |done];
      intros [= <-]; pose proof (inv_mutex _ Hinv) as Hmx;
      destruct Hinv; split; simpl; try done.
    all: intros t p Hl Hp; specialize (Hmx _ _ Hl Hp); intuition congruence.
Qed.

Lemma run_with_inv ok tr s s' :
  (∀ e s, ok e s = true → contract e s = true) →
  inv s → run_with ok tr s = Some s' → inv s'.
Proof.
  intros Hok. revert s. induction tr as [|e tr IH]; intros s Hinv; simpl;
    [by intros [= <-]|].
  destruct (ok e s) eqn:Hc; [|done].
  destruct (exec e s) as [s1|] eqn:He; [|done]. simpl.
  apply IH. eapply inv_exec; eauto.
Qed.

Lemma reachable_inv n s : reachable n s → inv s.
Proof.
  intros [tr Htr]. eapply run_with_inv; [|apply init_inv|exact Htr]. done.
Qed.

(** ** Runs compose *)

Lemma run_with_app ok tr1 tr2 s :
  run_with ok (tr1 ++ tr2) s = run_with ok tr1 s ≫= run_with ok tr2.
Proof.
  revert s. induction tr1 as [|e tr1 IH]; intros s; simpl; [done|].
  destruct (ok e s); [|done]. destruct (exec e s) as [s1|]; simpl; [apply IH|done].
Qed.

Lemma reachable_run_ok n s tr s' :
  reachable n s → run_ok tr s = Some s' → reachable n s'.
Proof.
  intros [tr0 H0] H1. exists (tr0 ++ tr). unfold run_ok in *.
  by rewrite run_with_app, H0.
Qed.

Lemma run_with_weaken (ok ok' : event → State → bool) tr s s' :
  (∀ e s, ok e s = true → ok' e s = true) →
  run_with ok tr s = Some s' → run_with ok' tr s = Some s'.
Proof.
  intros Hok. revert s. induction tr as [|e tr IH]; intros s; simpl; [done|].
  destruct (ok e s) eqn:He; [|done]. rewrite (Hok _ _ He).
  destruct (exec e s) as [s1|]; simpl; [apply IH|done].
Qed.

(** ** What one event does to the other threads *)

Lemma lookup_goto t p s r q :
  pcs (goto t p s) !! r = Some q →
  (r = t ∧ q = p) ∨ (r ≠ t ∧ pcs s !! r = Some q).
Proof.
  simpl. intros H. destruct (decide (r = t)) as [->|?].
  - left. split; [done|]. apply list_lookup_insert_Some in H.
    destruct H as [(_ & -> & _)|[? _]]; done.
  - right. by rewrite list_lookup_insert_ne in H.
Qed.

Lemma notify_one_pcs cv pick s s' r q :
  notify_one cv pick s = Some s' → pcs s' !! r = Some q →
  ∃ p, pcs s !! r = Some p ∧ (q = p ∨ q = wake_on cv p).
Proof.
  unfold notify_one. destruct (existsb _ _); [|intros [= <-]; simpl; eauto].
  destruct (pcs s !! pick) as [p|] eqn:Hp; [|done].
  destruct (waiting_on cv p) eqn:Hw; [|done]. intros [= <-] Hq.
  apply lookup_goto in Hq as [[-> ->]|[? Hq]]; [|eauto].
  exists p. split; [done|]. right. unfold wake_on. by rewrite Hw.
Qed.

Lemma statement_pcs t pick l s s' r q :
  pcs s !! t = Some (At l) →
  statement t pick l s = Some s' → pcs s' !! r = Some q →
  ∃ p, pcs s !! r = Some p ∧
       (q = p ∨ (∃ cv, q = wake_on cv p) ∨ (r = t ∧ q ∈ next p ∧ p = At l)).
Proof.
  intros Ht Hs Hq.
  assert (Hmove : ∀ s0 q0,
    (∀ r q, pcs s0 !! r = Some q → ∃ p, pcs s !! r = Some p ∧ (q = p ∨ ∃ cv, q = wake_on cv p)) →
    s' = goto t q0 s0 → q0 ∈ next (At l) →
    ∃ p, pcs s !! r = Some p ∧
       (q = p ∨ (∃ cv, q = wake_on cv p) ∨ (r = t ∧ q ∈ next p ∧ p = At l))).
  { intros s0 q0 H0 -> Hn. apply lookup_goto in Hq as [[-> ->]|[? Hq]].
    - exists (At l). split; [done|]. right; right. done.
    - destruct (H0 _ _ Hq) as (p & ? & [?|?]); exists p; eauto. }
  revert Hs.
  unfold statement, WLock, WUnlock, RLock, RUnlock, wait, unlock, lock, notify_all;
    destruct l; simpl; repeat case_match; try done; intros Hs; simplify_eq/=.
  all: try (eapply Hmove; [|reflexivity|rewrite !elem_of_cons; tauto]; simpl; by eauto).
  - eapply Hmove; [|reflexivity|rewrite !elem_of_cons; tauto]. simpl.
    intros r0 q0 H0. rewrite list_lookup_fmap in H0.
    destruct (pcs s !! r0) as [p0|]; simplify_eq/=. eauto.
  - destruct (notify_one writer_ pick s) as [s1|] eqn:Hn; simplify_eq/=.
    eapply Hmove; [|reflexivity|rewrite !elem_of_cons; tauto].
    intros r0 q0 H0. destruct (notify_one_pcs _ _ _ _ _ _ Hn H0) as (p & ? & [?|?]); eauto.
  - destruct (notify_one reader_ pick s) as [s1|] eqn:Hn; simplify_eq/=.
    eapply Hmove; [|reflexivity|rewrite !elem_of_cons; tauto].
    intros r0 q0 H0. destruct (notify_one_pcs _ _ _ _ _ _ Hn H0) as (p & ? & [?|?]); eauto.
Qed.

Lemma exec_pcs e s s' r q :
  exec e s = Some s' → pcs s' !! r = Some q →
  ∃ p, pcs s !! r = Some p ∧
       (q = p ∨ (∃ cv, q = wake_on cv p) ∨
        match e with
        | Call t m => r = t ∧ (∃ h, p = Rest h) ∧ q = At (entry m)
        | Step t _ => r = t ∧ q ∈ next p ∧ ∃ l, p = At l ∨ p = Relock l
        | Spurious t => r = t ∧ q = wake p
        | Dtor => False
        end).
Proof.
  unfold exec. destruct e as [t m|t c|t|].
  - destruct (pcs s !! t) as [[h| | |]|] eqn:Ht; try done. intros [= <-] Hq.
    apply lookup_goto in Hq as [[-> ->]|[? Hq]]; eauto 10.
  - destruct (pcs s !! t) as [[h|l|cv l|l]|] eqn:Ht; try done.
    + intros Hs Hq.
      destruct (statement_pcs _ _ _ _ _ _ _ Ht Hs Hq) as (p & ? & [?|[?|(? & ? & ?)]]);
        exists p; eauto 10.
    + unfold lock. destruct (mutex_ s); [done|]. intros [= <-] Hq.
      apply lookup_goto in Hq as [[-> ->]|[? Hq]]; [|eauto].
      exists (Relock l). split; [done|]. right; right. split; [done|]. simpl.
      split; [by apply list_elem_of_singleton|eauto].
  - destruct (pcs s !! t) as [[h|l|cv l|l]|] eqn:Ht; try done. intros [= <-] Hq.
    apply lookup_goto in Hq as [[-> ->]|[? Hq]]; eauto 10.
  - unfold destructor. repeat case_match; try done; intros [= <-]; simpl; eauto.
Qed.

(** The shared fields, statement by statement. *)
Lemma notify_one_fields cv pick s s' :
  notify_one cv pick s = Some s' →
  reader_count_ s' = reader_count_ s ∧ writer_entered_ s' = writer_entered_ s ∧
  mutex_ s' = mutex_ s ∧ object s' = object s ∧
  signals s' = signals s ++ [notified_one cv].
Proof. unfold notify_one. repeat case_match; try done; by intros [= <-]. Qed.

Lemma notify_one_length cv pick s s' :
  notify_one cv pick s = Some s' → length (pcs s') = length (pcs s).
Proof.
  unfold notify_one. repeat case_match; try done; intros [= <-]; simpl; [|done].
  by rewrite length_insert.
Qed.

Lemma exec_length e s s' :
  exec e s = Some s' → length (pcs s') = length (pcs s).
Proof.
  unfold exec. destruct e as [t m|t c|t|]; simpl.
  - destruct (pcs s !! t) as [[h| | |]|]; try done. intros [= <-]. apply length_insert.
  - destruct (pcs s !! t) as [[h|l|cv l|l]|]; try done.
    + unfold statement, WLock, WUnlock, RLock, RUnlock, wait, unlock, lock, notify_all;
      destruct l; simpl; repeat case_match; try done; intros Hs; simplify_eq/=;
      rewrite ?length_insert, ?length_fmap; try done.
      * destruct (notify_one writer_ c s) as [s1|] eqn:Hn; simplify_eq/=.
        rewrite length_insert. by eapply notify_one_length.
      * destruct (notify_one reader_ c s) as [s1|] eqn:Hn; simplify_eq/=.
        rewrite length_insert. by eapply notify_one_length.
    + unfold lock. destruct (mutex_ s); [done|]. intros [= <-]. apply length_insert.
  - destruct (pcs s !! t) as [[h|l|cv l|l]|]; try done. intros [= <-]. apply length_insert.
  - unfold destructor. repeat case_match; try done; by intros [= <-].
Qed.

(** ** Frame *)

Lemma statement_untouched t pick l s s' :
  statement t pick l s = Some s' → untouched (method_of l) s s'.
Proof.
  unfold statement, WLock, WUnlock, RLock, RUnlock, wait, unlock, lock, notify_all;
    destruct l; simpl; repeat case_match; try done; intros Hs; simplify_eq/=; try done.
  - destruct (notify_one writer_ pick s) as [s1|] eqn:Hn; simplify_eq/=.
    by apply notify_one_fields in Hn as (_ & ? & _).
  - destruct (notify_one reader_ pick s) as [s1|] eqn:Hn; simplify_eq/=.
    by apply notify_one_fields in Hn as (_ & ? & _).
Qed.

Lemma exec_untouched e s s' :
  exec e s = Some s' →
  match acting e s with
  | Some m => untouched m s s'
  | None => writer_entered_ s' = writer_entered_ s ∧ reader_count_ s' = reader_count_ s
  end.
Proof.
  unfold exec. destruct e as [t m|t c|t|]; simpl.
  - destruct (pcs s !! t) as [[h| | |]|]; try done. intros [= <-]. by destruct m.
  - destruct (pcs s !! t) as [[h|l|cv l|l]|]; try done.
    + apply statement_untouched.
    + unfold lock. destruct (mutex_ s); [done|]. intros [= <-]. by destruct (method_of l).
  - destruct (pcs s !! t) as [[h|l|cv l|l]|]; try done. intros [= <-].
    by destruct (method_of l).
  - unfold destructor. repeat case_match; try done; by intros [= <-].
Qed.

Lemma untouched_trans m s1 s2 s3 :
  untouched m s1 s2 → untouched m s2 s3 → untouched m s1 s3.
Proof. destruct m; simpl; congruence. Qed.

Lemma next_same_method l q :
  q ∈ next (At l) →
  match q with
  | At l' | Waiting _ l' => method_of l' = method_of l
  | Relock _ => False
  | Rest _ => True
  end.
Proof. destruct l; simpl; rewrite ?elem_of_cons, ?list_elem_of_singleton, ?elem_of_nil; intros H;
  repeat destruct H as [H|H]; subst; try done. Qed.

Lemma solo_untouched m k t pick s s' p :
  pcs s !! t = Some p → inside m p →
  solo k t pick s = Some s' → untouched m s s'.
Proof.
  revert s p. induction k as [|k IH]; intros s p Ht Hin; cbn [solo].
  { intros [= <-]. by destruct m. }
  rewrite Ht.
  assert (Hgo : exec (Step t pick) s ≫= solo k t pick = Some s' → (∃ l, p = At l ∨ p = Relock l) → untouched m s s').
  { destruct (exec (Step t pick) s) as [s1|] eqn:He; [simpl|done]. intros Hs [l Hl].
    pose proof (exec_untouched _ _ _ He) as Hu. simpl in Hu. rewrite Ht in Hu.
    assert (Hm : untouched m s s1) by (destruct Hl as [-> | ->]; simpl in *; by subst m).
    assert (Hlen : (t < length (pcs s1))%nat).
    { rewrite (exec_length _ _ _ He). by eapply lookup_lt_Some. }
    apply lookup_lt_is_Some in Hlen as [q Hq].
    destruct (exec_pcs _ _ _ _ _ He Hq) as (p' & Hp' & Hcase). simplify_eq.
    eapply untouched_trans; [exact Hm|]. eapply (IH s1 q); [done| |done].
    destruct Hcase as [->|[[cv ->]|(_ & Hn & _)]].
    - done.
    - destruct Hl as [-> | ->]; done.
    - destruct Hl as [-> | ->].
      + apply next_same_method in Hn. destruct q; simpl in *; try done; congruence.
      + simpl in Hn. apply list_elem_of_singleton in Hn as ->. done. }
  destruct p; try (intros [= <-]; by destruct m); eauto.
Qed.

(** ** Whole calls *)

Lemma pcs_goto_eq t p s :
  (t < length (pcs s))%nat → pcs (goto t p s) !! t = Some p.
Proof. intros. simpl. by apply list_lookup_insert_eq. Qed.

Lemma solo_S k t pick s :
  solo (S k) t pick s =
    match pcs s !! t with
    | Some (At _) | Some (Relock _) => exec (Step t pick) s ≫= solo k t pick
    | _ => Some s
    end.
Proof. reflexivity. Qed.

Lemma solo_At k t pick s l :
  object s ≠ Destroyed → pcs s !! t = Some (At l) →
  solo (S k) t pick s = statement t pick l s ≫= solo k t pick.
Proof.
  intros Ho Ht. rewrite solo_S, Ht. unfold exec.
  by rewrite Ht.
Qed.

Lemma solo_Relock k t pick s l :
  object s ≠ Destroyed → pcs s !! t = Some (Relock l) →
  solo (S k) t pick s = lock t l s ≫= solo k t pick.
Proof.
  intros Ho Ht. rewrite solo_S, Ht. unfold exec.
  by rewrite Ht.
Qed.

Lemma solo_Rest k t pick s h :
  pcs s !! t = Some (Rest h) → solo k t pick s = Some s.
Proof. intros Ht. destruct k; [done|]. by rewrite solo_S, Ht. Qed.

Lemma solo_Waiting k t pick s cv l :
  pcs s !! t = Some (Waiting cv l) → solo k t pick s = Some s.
Proof. intros Ht. destruct k; [done|]. by rewrite solo_S, Ht. Qed.

#[local] Arguments solo : simpl never.

Lemma call_unfold t m pick s h :
  object s ≠ Destroyed → pcs s !! t = Some (Rest h) →
  call t m pick s = solo 8 t pick (goto t (At (entry m)) s).
Proof.
  intros Ho Ht. unfold call, exec.
  by rewrite Ht.
Qed.

Lemma state_eq s s' :
  mutex_ s = mutex_ s' → reader_count_ s = reader_count_ s' →
  writer_entered_ s = writer_entered_ s' → pcs s = pcs s' →
  object s = object s' → signals s = signals s' → s = s'.
Proof. destruct s, s'; simpl; congruence. Qed.

Ltac state_eq :=
  apply state_eq; simpl; rewrite ?list_insert_insert_eq; try done; try congruence.

(* one statement of thread t starting from a state of the shape [goto t (At l) _] *)
Ltac solo_step :=
  first
  [ erewrite solo_At by (first [done | apply pcs_goto_eq; simpl; by rewrite ?length_insert]);
    unfold statement; simpl
  | erewrite solo_Relock by (first [done | apply pcs_goto_eq; simpl; by rewrite ?length_insert]);
    simpl
  | erewrite solo_Rest by (apply pcs_goto_eq; simpl; by rewrite ?length_insert)
  | erewrite solo_Waiting by (apply pcs_goto_eq; simpl; by rewrite ?length_insert) ].

Lemma solo_WLock_50 k t pick s :
  object s ≠ Destroyed → pcs s !! t = Some (At WL50) →
  solo (5 + k) t pick s =
    Some (if writer_entered_ s then goto t (Waiting reader_ WL50) (set_mutex_ None s)
          else if 0 <? reader_count_ s
               then goto t (Waiting writer_ WL56) (set_mutex_ None (set_writer_entered_ true s))
               else goto t (Rest Writing) (set_mutex_ None (set_writer_entered_ true s))).
Proof.
  intros Ho Ht. assert (Hlen : (t < length (pcs s))%nat) by by eapply lookup_lt_Some.
  change (5 + k)%nat with (S (S (S (S (S k))))).
  erewrite solo_At by done. unfold statement; simpl.
  destruct (writer_entered_ s) eqn:Hw; simpl.
  - unfold wait; simpl. solo_step. done.
  - solo_step. solo_step. destruct (0 <? reader_count_ s); simpl.
    + unfold wait; simpl. solo_step. f_equal. state_eq.
    + solo_step. unfold unlock; simpl. solo_step. f_equal. state_eq.
Qed.

Lemma solo_WLock_56 k t pick s :
  object s ≠ Destroyed → pcs s !! t = Some (At WL56) →
  solo (3 + k) t pick s =
    Some (if 0 <? reader_count_ s
          then goto t (Waiting writer_ WL56) (set_mutex_ None s)
          else goto t (Rest Writing) (set_mutex_ None s)).
Proof.
  intros Ho Ht. assert (Hlen : (t < length (pcs s))%nat) by by eapply lookup_lt_Some.
  change (3 + k)%nat with (S (S (S k))).
  erewrite solo_At by done. unfold statement; simpl.
  destruct (0 <? reader_count_ s); simpl.
  - unfold wait; simpl. solo_step. done.
  - solo_step. unfold unlock; simpl. solo_step. f_equal. state_eq.
Qed.

Lemma solo_RLock_77 k t pick s :
  object s ≠ Destroyed → pcs s !! t = Some (At RL77) →
  solo (4 + k) t pick s =
    Some (if writer_entered_ s || (reader_count_ s =? MAX_READERS)
          then goto t (Waiting reader_ RL77) (set_mutex_ None s)
          else goto t (Rest Reading)
                 (set_mutex_ None (set_reader_count_ (wrap32 (reader_count_ s + 1)) s))).
Proof.
  intros Ho Ht. assert (Hlen : (t < length (pcs s))%nat) by by eapply lookup_lt_Some.
  change (4 + k)%nat with (S (S (S (S k)))).
  erewrite solo_At by done. unfold statement; simpl.
  destruct (writer_entered_ s || (reader_count_ s =? MAX_READERS)); simpl.
  - unfold wait; simpl. solo_step. done.
  - solo_step. solo_step. unfold unlock; simpl. solo_step. f_equal. state_eq.
Qed.

(** Entering a method and taking the free mutex. *)
Lemma call_enter t m pick s h :
  object s ≠ Destroyed → mutex_ s = None → pcs s !! t = Some (Rest h) →
  call t m pick s =
    solo 7 t pick
      (goto t (At match m with mWLock => WL50 | mWUnlock => WU67
                             | mRLock => RL77 | mRUnlock => RU88 end)
            (set_mutex_ (Some (Thread t)) s)).
Proof.
  intros Ho Hm Ht. assert (Hlen : (t < length (pcs s))%nat) by by eapply lookup_lt_Some.
  erewrite call_unfold by done.
  erewrite solo_At by (first [done | by apply pcs_goto_eq]).
  unfold statement. destruct m; simpl; unfold lock; simpl; rewrite Hm; simpl;
    f_equal; state_eq.
Qed.

Lemma resume_enter t pick s l :
  object s ≠ Destroyed → mutex_ s = None → pcs s !! t = Some (Relock l) →
  resume t pick s = solo 7 t pick (goto t (At l) (set_mutex_ (Some (Thread t)) s)).
Proof.
  intros Ho Hm Ht. unfold resume. erewrite solo_Relock by done.
  unfold lock. by rewrite Hm.
Qed.

Lemma call_WLock t pick s h :
  object s ≠ Destroyed → mutex_ s = None → pcs s !! t = Some (Rest h) →
  call t mWLock pick s =
    Some (if writer_entered_ s then goto t (Waiting reader_ WL50) s
          else if 0 <? reader_count_ s
               then goto t (Waiting writer_ WL56) (set_writer_entered_ true s)
               else goto t (Rest Writing) (set_writer_entered_ true s)).
Proof.
  intros Ho Hm Ht. assert (Hlen : (t < length (pcs s))%nat) by by eapply lookup_lt_Some.
  erewrite call_enter by done.
  rewrite (solo_WLock_50 2) by (first [done | by apply pcs_goto_eq]). simpl.
  f_equal. repeat case_match; state_eq.
Qed.

Lemma resume_WLock_50 t pick s :
  object s ≠ Destroyed → mutex_ s = None → pcs s !! t = Some (Relock WL50) →
  resume t pick s =
    Some (if writer_entered_ s then goto t (Waiting reader_ WL50) s
          else if 0 <? reader_count_ s
               then goto t (Waiting writer_ WL56) (set_writer_entered_ true s)
               else goto t (Rest Writing) (set_writer_entered_ true s)).
Proof.
  intros Ho Hm Ht. assert (Hlen : (t < length (pcs s))%nat) by by eapply lookup_lt_Some.
  erewrite resume_enter by done.
  rewrite (solo_WLock_50 2) by (first [done | by apply pcs_goto_eq]). simpl.
  f_equal. repeat case_match; state_eq.
Qed.

Lemma resume_WLock_56 t pick s :
  object s ≠ Destroyed → mutex_ s = None → pcs s !! t = Some (Relock WL56) →
  resume t pick s =
    Some (if 0 <? reader_count_ s
          then goto t (Waiting writer_ WL56) s
          else goto t (Rest Writing) s).
Proof.
  intros Ho Hm Ht. assert (Hlen : (t < length (pcs s))%nat) by by eapply lookup_lt_Some.
  erewrite resume_enter by done.
  rewrite (solo_WLock_56 4) by (first [done | by apply pcs_goto_eq]). simpl.
  f_equal. repeat case_match; state_eq.
Qed.

Lemma call_RLock t pick s h :
  object s ≠ Destroyed → mutex_ s = None → pcs s !! t = Some (Rest h) →
  call t mRLock pick s =
    Some (if writer_entered_ s || (reader_count_ s =? MAX_READERS)
          then goto t (Waiting reader_ RL77) s
          else goto t (Rest Reading)
                 (set_reader_count_ (wrap32 (reader_count_ s + 1)) s)).
Proof.
  intros Ho Hm Ht. assert (Hlen : (t < length (pcs s))%nat) by by eapply lookup_lt_Some.
  erewrite call_enter by done.
  rewrite (solo_RLock_77 3) by (first [done | by apply pcs_goto_eq]). simpl.
  f_equal. repeat case_match; state_eq.
Qed.

Lemma resume_RLock t pick s :
  object s ≠ Destroyed → mutex_ s = None → pcs s !! t = Some (Relock RL77) →
  resume t pick s =
    Some (if writer_entered_ s || (reader_count_ s =? MAX_READERS)
          then goto t (Waiting reader_ RL77) s
          else goto t (Rest Reading)
                 (set_reader_count_ (wrap32 (reader_count_ s + 1)) s)).
Proof.
  intros Ho Hm Ht. assert (Hlen : (t < length (pcs s))%nat) by by eapply lookup_lt_Some.
  erewrite resume_enter by done.
  rewrite (solo_RLock_77 3) by (first [done | by apply pcs_goto_eq]). simpl.
  f_equal. repeat case_match; state_eq.
Qed.

Lemma call_WUnlock t pick s h :
  object s ≠ Destroyed → mutex_ s = None → pcs s !! t = Some (Rest h) →
  call t mWUnlock pick s =
    Some (goto t (Rest Idle)
            (emit (notified_all reader_)
               (set_pcs (wake_on reader_ <$> pcs s) (set_writer_entered_ false s)))).
Proof.
  intros Ho Hm Ht. assert (Hlen : (t < length (pcs s))%nat) by by eapply lookup_lt_Some.
  erewrite call_enter by done.
  solo_step. solo_step. unfold notify_all; simpl.
  erewrite solo_At; [|done|apply pcs_goto_eq; simpl; by rewrite length_fmap, !length_insert].
  unfold statement, unlock; simpl.
  erewrite solo_Rest; [|apply pcs_goto_eq; simpl; by rewrite !length_insert, length_fmap, !length_insert].
  f_equal. state_eq.
  rewrite !list_fmap_insert, !list_insert_insert_eq. done.
Qed.

Lemma existsb_insert (f : pc → bool) (l : list pc) t p p0 :
  l !! t = Some p0 → f p0 = false → f p = false →
  existsb f (<[t := p]> l) = existsb f l.
Proof.
  revert t. induction l as [|a l IH]; intros [|t] Hl H0 Hp; simplify_eq/=.
  - by rewrite H0, Hp.
  - f_equal. by apply IH.
Qed.

Lemma notify_one_goto cv pick t p p0 s :
  pcs s !! t = Some p0 → waiting_on cv p0 = false → waiting_on cv p = false →
  notify_one cv pick (goto t p s) = goto t p <$> notify_one cv pick s.
Proof.
  intros Ht H0 Hp. assert (Hlen : (t < length (pcs s))%nat) by by eapply lookup_lt_Some.
  unfold notify_one. simpl. rewrite (existsb_insert _ _ _ _ _ Ht H0 Hp).
  destruct (existsb (waiting_on cv) (pcs s)); [|done].
  destruct (decide (pick = t)) as [->|Hne].
  - rewrite list_lookup_insert_eq by done. by rewrite Ht, H0, Hp.
  - rewrite list_lookup_insert_ne by done.
    destruct (pcs s !! pick) as [q|]; [|done].
    destruct (waiting_on cv q); [|done]. simpl. f_equal. state_eq.
    by apply list_insert_insert_ne.
Qed.

Lemma notify_one_set_mutex_ cv pick o s :
  notify_one cv pick (set_mutex_ o s) = set_mutex_ o <$> notify_one cv pick s.
Proof. unfold notify_one. simpl. by repeat case_match. Qed.

Lemma solo_RUnlock_93 cv k t pick s l :
  object s ≠ Destroyed → pcs s !! t = Some (At l) →
  (cv = writer_ ∧ l = RU93) ∨ (cv = reader_ ∧ l = RU97) →
  solo (S (S k)) t pick s =
    (λ s', goto t (Rest Idle) (set_mutex_ None s')) <$> notify_one cv pick s.
Proof.
  intros Ho Ht Hl. assert (Hlen : (t < length (pcs s))%nat) by by eapply lookup_lt_Some.
  erewrite solo_At by done.
  assert (statement t pick l s = goto t (At RU100) <$> notify_one cv pick s) as ->.
  { by destruct Hl as [[-> ->]|[-> ->]]. }
  destruct (notify_one cv pick s) as [s1|] eqn:Hn; [simpl|done].
  destruct (notify_one_fields _ _ _ _ Hn) as (_ & _ & _ & Ho1 & _).
  pose proof (notify_one_length _ _ _ _ Hn) as Hlen1.
  erewrite solo_At; [|simpl; congruence|apply pcs_goto_eq; congruence].
  unfold statement, unlock; simpl.
  erewrite solo_Rest; [|apply pcs_goto_eq; simpl; rewrite length_insert; congruence].
  f_equal. state_eq.
Qed.

Lemma solo_RUnlock_88 k t pick s :
  object s ≠ Destroyed → pcs s !! t = Some (At RU88) →
  solo (5 + k) t pick s =
    let c := wrap32 (reader_count_ s - 1) in
    let s1 := set_reader_count_ c s in
    let leave := λ s', goto t (Rest Idle) (set_mutex_ None s') in
    if writer_entered_ s
    then if c =? 0 then leave <$> notify_one writer_ pick s1 else Some (leave s1)
    else if c =? MAX_READERS - 1
         then leave <$> notify_one reader_ pick s1 else Some (leave s1).
Proof.
  intros Ho Ht. assert (Hlen : (t < length (pcs s))%nat) by by eapply lookup_lt_Some.
  change (5 + k)%nat with (S (S (S (S (S k))))). simpl.
  erewrite solo_At by done. unfold statement; simpl.
  solo_step. destruct (writer_entered_ s); simpl.
  - solo_step. destruct (wrap32 (reader_count_ s - 1) =? 0).
    + rewrite (solo_RUnlock_93 writer_ k _ _ _ RU93);
        [|done|apply pcs_goto_eq; simpl; by rewrite !length_insert|tauto].
      repeat (erewrite notify_one_goto;
        [|first [exact Ht | apply pcs_goto_eq; simpl; by rewrite ?length_insert]
         |done|done]).
      destruct (notify_one writer_ _ _) as [s1|]; [simpl|done]. f_equal. state_eq.
    + solo_step. unfold unlock; simpl. solo_step. f_equal. state_eq.
  - solo_step. destruct (wrap32 (reader_count_ s - 1) =? MAX_READERS - 1).
    + rewrite (solo_RUnlock_93 reader_ k _ _ _ RU97);
        [|done|apply pcs_goto_eq; simpl; by rewrite !length_insert|tauto].
      repeat (erewrite notify_one_goto;
        [|first [exact Ht | apply pcs_goto_eq; simpl; by rewrite ?length_insert]
         |done|done]).
      destruct (notify_one reader_ _ _) as [s1|]; [simpl|done]. f_equal. state_eq.
    + solo_step. unfold unlock; simpl. solo_step. f_equal. state_eq.
Qed.

Lemma call_RUnlock t pick s h :
  object s ≠ Destroyed → mutex_ s = None → pcs s !! t = Some (Rest h) →
  call t mRUnlock pick s =
    let c := wrap32 (reader_count_ s - 1) in
    let s1 := set_reader_count_ c s in
    if writer_entered_ s
    then if c =? 0
         then goto t (Rest Idle) <$> notify_one writer_ pick s1
         else Some (goto t (Rest Idle) s1)
    else if c =? MAX_READERS - 1
         then goto t (Rest Idle) <$> notify_one reader_ pick s1
         else Some (goto t (Rest Idle) s1).
Proof.
  intros Ho Hm Ht. assert (Hlen : (t < length (pcs s))%nat) by by eapply lookup_lt_Some.
  erewrite call_enter by done.
  rewrite (solo_RUnlock_88 2) by (first [done | by apply pcs_goto_eq]). simpl.
  assert (Hn : ∀ cv,
    (λ s', goto t (Rest Idle) (set_mutex_ None s')) <$>
      notify_one cv pick
        (set_reader_count_ (wrap32 (reader_count_ s - 1))
           (goto t (At RU88) (set_mutex_ (Some (Thread t)) s)))
    = goto t (Rest Idle) <$>
        notify_one cv pick (set_reader_count_ (wrap32 (reader_count_ s - 1)) s)).
  { intros cv.
    change (set_reader_count_ (wrap32 (reader_count_ s - 1))
              (goto t (At RU88) (set_mutex_ (Some (Thread t)) s)))
      with (goto t (At RU88) (set_mutex_ (Some (Thread t))
              (set_reader_count_ (wrap32 (reader_count_ s - 1)) s))).
    erewrite notify_one_goto; [|exact Ht|done|done].
    rewrite notify_one_set_mutex_.
    destruct (notify_one cv pick _) as [s2|] eqn:Hs2; [simpl|done].
    destruct (notify_one_fields _ _ _ _ Hs2) as (_ & _ & Hm2 & _).
    simpl in Hm2. f_equal. state_eq. }
  rewrite !Hn. repeat case_match; try done; f_equal; state_eq.
Qed.

(** What [notify_one] amounts to. *)
Lemma notify_one_spec cv pick s s' :
  notify_one cv pick s = Some s' →
  reader_count_ s' = reader_count_ s ∧ writer_entered_ s' = writer_entered_ s ∧
  mutex_ s' = mutex_ s ∧ object s' = object s ∧
  signals s' = signals s ++ [notified_one cv] ∧
  ((∀ r p, pcs s !! r = Some p → waiting_on cv p = false) ∧ pcs s' = pcs s
   ∨ ∃ l, pcs s !! pick = Some (Waiting cv l) ∧
          pcs s' = <[pick := Relock l]> (pcs s)).
Proof.
  intros Hn. destruct (notify_one_fields _ _ _ _ Hn) as (? & ? & ? & ? & ?).
  repeat (split; [done|]). revert Hn. unfold notify_one.
  destruct (existsb (waiting_on cv) (pcs s)) eqn:He.
  - destruct (pcs s !! pick) as [p|] eqn:Hp; [|done].
    destruct (waiting_on cv p) eqn:Hw; [|done]. intros [= <-]. right.
    destruct p as [| |cv' l|]; try done. simpl in Hw. apply bool_decide_eq_true in Hw as ->.
    by exists l.
  - intros [= <-]. left. split; [|done]. intros r p Hr.
    destruct (waiting_on cv p) eqn:Hw; [|done].
    assert (existsb (waiting_on cv) (pcs s) = true); [|congruence].
    apply existsb_exists. exists p. split; [|done].
    apply list_elem_of_In, list_elem_of_lookup. eauto.
Qed.

(** [notify_one] never blocks: some [pick] is always possible. *)
Lemma notify_one_total cv s : ∃ pick s', notify_one cv pick s = Some s'.
Proof.
  unfold notify_one. destruct (existsb (waiting_on cv) (pcs s)) eqn:He.
  - apply existsb_exists in He as (p & Hin & Hw).
    apply list_elem_of_In, list_elem_of_lookup in Hin as [i Hi].
    exists i. rewrite Hi, Hw. eauto.
  - exists 0%nat. eauto.
Qed.

(** ** Whole calls are schedules *)

Lemma solo_is_run k t pick s s' :
  solo k t pick s = Some s' →
  ∃ j, run (replicate j (Step t pick)) s = Some s'.
Proof.
  revert s. induction k as [|k IH]; intros s; [intros [= <-]; by exists 0%nat|].
  rewrite solo_S.
  assert (Hgo : exec (Step t pick) s ≫= solo k t pick = Some s' →
                ∃ j, run (replicate j (Step t pick)) s = Some s').
  { destruct (exec (Step t pick) s) as [s1|] eqn:He; [simpl|done]. intros Hs.
    destruct (IH _ Hs) as [j Hj]. exists (S j). unfold run in *. simpl. by rewrite He. }
  destruct (pcs s !! t) as [[| | |]|]; try done; intros [= <-]; by exists 0%nat.
Qed.

Lemma call_is_run t m pick s s' :
  call t m pick s = Some s' →
  ∃ j, run (Call t m :: replicate j (Step t pick)) s = Some s'.
Proof.
  unfold call. destruct (exec (Call t m) s) as [s1|] eqn:He; [simpl|done].
  intros [j Hj]%solo_is_run. exists j. unfold run in *. simpl. by rewrite He.
Qed.

Lemma run_run_ok tr s :
  Forall (λ e, ∀ t m, e ≠ Call t m) tr → run_ok tr s = run tr s.
Proof.
  unfold run_ok, run. revert s. induction tr as [|e tr IH]; intros s Hall; [done|].
  apply Forall_cons in Hall as [He Hall]. simpl.
  assert (contract e s = true) as -> by (destruct e; [by destruct (He t m)|done..]).
  destruct (exec e s) as [s1|]; simpl; [by apply IH|done].
Qed.

(** A call that honours the contract keeps the state reachable. *)
Lemma call_reachable n t m pick s s' :
  reachable n s → contract (Call t m) s = true →
  call t m pick s = Some s' → reachable n s'.
Proof.
  intros Hr Hc Hcall. unfold call in Hcall.
  destruct (exec (Call t m) s) as [s1|] eqn:He; [simpl in Hcall|done].
  apply solo_is_run in Hcall as [j Hj].
  eapply reachable_run_ok; [|rewrite run_run_ok; [exact Hj|]].
  - eapply (reachable_run_ok _ _ [Call t m]); [exact Hr|].
    unfold run_ok. cbn [run_with]. by rewrite Hc, He.
  - apply Forall_replicate. intros; done.
Qed.

(** The frame of a whole call. *)
Lemma call_untouched t m pick s s' :
  call t m pick s = Some s' → untouched m s s'.
Proof.
  unfold call. destruct (exec (Call t m) s) as [s1|] eqn:He; [simpl|done].
  intros Hs. pose proof (exec_untouched _ _ _ He) as H1. simpl in H1.
  eapply untouched_trans; [exact H1|].
  assert (Ht : pcs s1 !! t = Some (At (entry m))).
  { revert He. unfold exec.
    destruct (pcs s !! t) as [[| | |]|] eqn:Ht; try done. intros [= <-].
    apply list_lookup_insert_eq. by eapply lookup_lt_Some. }
  eapply solo_untouched; [exact Ht| |exact Hs]. by destruct m.
Qed.

Lemma announced_split p : announced p = draining p || drained p.
Proof. by destruct p as [[]|[]|? []|[]]. Qed.

(** ** Consequences of the invariant *)

Lemma drained_alone s w p :
  inv s → pcs s !! w = Some p → drained p = true →
  writer_entered_ s = true ∧ reader_count_ s = 0 ∧
  ∀ r q, pcs s !! r = Some q → counted q = false.
Proof.
  intros Hinv Hp Hd.
  pose proof (inv_readers _ Hinv) as Hr. pose proof (inv_writer _ Hinv) as Hw.
  pose proof (inv_drained _ Hinv _ _ Hp Hd) as H0.
  pose proof (count_pos announced _ _ _ Hp (drained_announced _ Hd)).
  split; [destruct (writer_entered_ s); [done|lia]|]. split; [done|].
  intros r q Hq. eapply count_zero; [|exact Hq]. lia.
Qed.

Lemma announced_unique s w1 w2 p1 p2 :
  inv s → pcs s !! w1 = Some p1 → pcs s !! w2 = Some p2 →
  announced p1 = true → announced p2 = true → w1 = w2.
Proof.
  intros Hinv H1 H2 Ha1 Ha2. eapply (count_unique announced); eauto.
  rewrite (inv_writer _ Hinv). destruct (writer_entered_ s); lia.
Qed.

Lemma announced_exists s :
  inv s → writer_entered_ s = true →
  ∃ w p, pcs s !! w = Some p ∧ announced p = true.
Proof.
  intros Hinv Hf. pose proof (inv_writer _ Hinv) as Hw. rewrite Hf in Hw.
  apply count_exists. lia.
Qed.

Lemma announced_entered s w p :
  inv s → pcs s !! w = Some p → announced p = true → writer_entered_ s = true.
Proof.
  intros Hinv Hp Ha. pose proof (inv_writer _ Hinv) as Hw.
  pose proof (count_pos announced _ _ _ Hp Ha). destruct (writer_entered_ s); [done|lia].
Qed.

Lemma still_draining s :
  inv s → writer_entered_ s = true → 0 < reader_count_ s →
  ∃ w p, pcs s !! w = Some p ∧ draining p = true.
Proof.
  intros Hinv Hf Hpos. destruct (announced_exists s Hinv Hf) as (w & p & Hp & Ha).
  exists w, p. split; [done|]. rewrite announced_split in Ha.
  destruct (draining p); [done|]. simpl in Ha.
  pose proof (inv_drained _ Hinv _ _ Hp Ha). lia.
Qed.

(** C1. Mutual exclusion: in every state reachable under the callers'
    contract, a writer that has left the drain loop of line 56 finds
    [writer_entered_] set, [reader_count_] equal to 0 and no thread accounted
    as a reader; at most one thread is the announced writer; and
    [writer_entered_] together with a positive [reader_count_] occurs only
    while that writer is still inside the drain loop. *)
Theorem mutual_exclusion n s :
  reachable n s →
  (∀ w p, pcs s !! w = Some p → drained p = true →
     writer_entered_ s = true ∧ reader_count_ s = 0 ∧
     ∀ r q, pcs s !! r = Some q → counted q = false) ∧
  (∀ w1 w2 p1 p2, pcs s !! w1 = Some p1 → pcs s !! w2 = Some p2 →
     announced p1 = true → announced p2 = true → w1 = w2) ∧
  (writer_entered_ s = true → 0 < reader_count_ s →
     ∃ w p, pcs s !! w = Some p ∧ draining p = true).
Proof.
  intros Hinv%reachable_inv. split; [|split].
  - intros w p. by apply drained_alone.
  - intros w1 w2 p1 p2. by apply announced_unique.
  - by apply still_draining.
Qed.

(** The life cycle moves with the destructor only. *)
Lemma statement_object t pick l s s' :
  statement t pick l s = Some s' → object s' = object s.
Proof.
  unfold statement, WLock, WUnlock, RLock, RUnlock, lock, unlock, wait, notify_all.
  destruct l; simpl; repeat case_match; try done; try (by intros [= <-]).
  all: destruct (notify_one _ pick s) as [s1|] eqn:Hn; [simpl|done]; intros [= <-];
    by destruct (notify_one_fields _ _ _ _ Hn) as (_ & _ & _ & ? & _).
Qed.

Lemma exec_object e s s' :
  exec e s = Some s' → e ≠ Dtor → object s' = object s.
Proof.
  unfold exec. destruct e as [t m|t c|t|]; [| | |done]; intros He _; revert He.
  - destruct (pcs s !! t) as [[h| | |]|]; try done. by intros [= <-].
  - destruct (pcs s !! t) as [[h|l|cv l|l]|]; try done.
    + apply statement_object.
    + unfold lock. destruct (mutex_ s); [done|]. by intros [= <-].
  - destruct (pcs s !! t) as [[h|l|cv l|l]|]; try done. by intros [= <-].
Qed.

(** With the mutex free the destructor runs to its end, and changes nothing
    but the life cycle. *)
Lemma destructor_returns s :
  object s = Alive → mutex_ s = None →
  run_ok [Dtor; Dtor] s = Some (set_object Destroyed s).
Proof.
  intros Ho Hm. unfold run_ok. cbn [run_with contract]. unfold exec, destructor.
  rewrite Ho, Hm. simpl. destruct s; simpl in *; by subst.
Qed.

(** The first statement of every method takes the mutex, whatever the life
    cycle says. *)
Lemma entry_step t m pick s :
  mutex_ s = None → pcs s !! t = Some (At (entry m)) →
  ∃ s', exec (Step t pick) s = Some s' ∧ mutex_ s' = Some (Thread t) ∧
        object s' = object s.
Proof.
  intros Hm Ht. unfold exec. rewrite Ht.
  unfold statement, WLock, WUnlock, RLock, RUnlock, lock.
  destruct m; simpl; rewrite Hm; eauto.
Qed.


(** C3. [WLock] runs in two phases.  A caller that finds the mutex free
    parks on [reader_] at line 50 if a writer has entered, leaving
    [writer_entered_] alone; otherwise it sets [writer_entered_] and then
    parks on [writer_] at line 56 if readers remain, or returns as the
    writer.  A thread woken in either loop tests its loop condition again.
    In every reachable state the thread about to execute line 54 finds
    [writer_entered_] clear and no other writer announced, and a thread that
    has left the second loop finds [reader_count_] at 0. *)
Theorem WLock_two_phases n s t pick :
  reachable n s →
  (mutex_ s = None → object s ≠ Destroyed →
   ((∃ h, pcs s !! t = Some (Rest h)) →
      call t mWLock pick s =
        Some (if writer_entered_ s then goto t (Waiting reader_ WL50) s
              else if 0 <? reader_count_ s
                   then goto t (Waiting writer_ WL56) (set_writer_entered_ true s)
                   else goto t (Rest Writing) (set_writer_entered_ true s))) ∧
   (pcs s !! t = Some (Relock WL50) →
      resume t pick s =
        Some (if writer_entered_ s then goto t (Waiting reader_ WL50) s
              else if 0 <? reader_count_ s
                   then goto t (Waiting writer_ WL56) (set_writer_entered_ true s)
                   else goto t (Rest Writing) (set_writer_entered_ true s))) ∧
   (pcs s !! t = Some (Relock WL56) →
      resume t pick s =
        Some (if 0 <? reader_count_ s
              then goto t (Waiting writer_ WL56) s
              else goto t (Rest Writing) s))) ∧
  (pcs s !! t = Some (At WL54) →
     writer_entered_ s = false ∧
     ∀ w p, pcs s !! w = Some p → announced p = false) ∧
  (pcs s !! t = Some (At WL59) ∨ pcs s !! t = Some (Rest Writing) →
     writer_entered_ s = true ∧ reader_count_ s = 0 ∧
     ∀ r q, pcs s !! r = Some q → counted q = false).
Proof.
  intros Hr. pose proof (reachable_inv _ _ Hr) as Hinv. split; [|split].
  - intros Hm Ho. split; [|split].
    + intros [h Ht]. by eapply call_WLock.
    + intros Ht. by apply resume_WLock_50.
    + intros Ht. by apply resume_WLock_56.
  - intros Ht. pose proof (inv_local _ Hinv _ _ Ht) as Hw. simpl in Hw.
    split; [done|]. intros w p Hp. eapply count_zero; [|exact Hp].
    rewrite (inv_writer _ Hinv), Hw. done.
  - intros [Ht|Ht]; by apply (drained_alone _ _ _ Hinv Ht).
Qed.

Lemma wrap32_pred c : 0 < c ≤ MAX_READERS → wrap32 (c - 1) = c - 1.
Proof. unfold MAX_READERS. intros. apply wrap32_small. lia. Qed.

Lemma wrap32_pred_max c :
  0 ≤ c ≤ MAX_READERS → (wrap32 (c - 1) =? MAX_READERS - 1) = (c =? MAX_READERS).
Proof.
  unfold MAX_READERS, wrap32. intros Hc. destruct (decide (c = 0)) as [->|Hne].
  - reflexivity.
  - rewrite Z.mod_small by lia.
    destruct (Z.eqb_spec (c - 1) (2 ^ 32 - 1 - 1)), (Z.eqb_spec c (2 ^ 32 - 1)); lia.
Qed.

Lemma goto_others t p s r : r ≠ t → pcs (goto t p s) !! r = pcs s !! r.
Proof. intros. simpl. by rewrite list_lookup_insert_ne. Qed.

Lemma woke_one_intro cv l pick t h s s1 s' :
  pcs s !! t = Some (Rest h) →
  notify_one cv pick s1 = Some s' →
  pcs s1 = pcs s → signals s1 = signals s →
  (∀ r l', pcs s !! r = Some (Waiting cv l') → l' = l) →
  woke_one cv l pick t s (goto t (Rest Idle) s').
Proof.
  intros Ht Hn Hp Hs Hl.
  destruct (notify_one_spec _ _ _ _ Hn) as (_ & _ & _ & _ & Hsig & Hcase).
  split; [simpl; congruence|]. rewrite Hp in Hcase.
  destruct Hcase as [[Hno Heq]|(l' & Hpick & Heq)].
  - left. split; [done|]. intros r Hr. rewrite goto_others by done. by rewrite Heq.
  - right. pose proof (Hl _ _ Hpick) as ->. split; [done|].
    assert (pick ≠ t). { intros ->. congruence. }
    split.
    + rewrite goto_others by done. rewrite Heq.
      apply list_lookup_insert_eq. by eapply lookup_lt_Some.
    + intros r Hr Hr'. rewrite goto_others by done. rewrite Heq.
      by rewrite list_lookup_insert_ne.
Qed.

(** C5. [RUnlock] takes one off [reader_count_] (in [uint32_t] arithmetic;
    exactly one less for a thread that holds a read latch), leaves
    [writer_entered_] alone and returns.  It issues one [notify_one] on
    [writer_] if a writer has entered and the new count is 0: that wakes the
    writer parked in the drain loop (line 57), and nobody else.  It issues
    one [notify_one] on [reader_] if no writer has entered and the count was
    [MAX_READERS] before: that wakes exactly one of the readers parked at
    line 78, if there is one.  Otherwise it issues no notification and no
    other thread moves. *)
Theorem RUnlock_wake_policy n s t h :
  reachable n s → mutex_ s = None → object s ≠ Destroyed →
  pcs s !! t = Some (Rest h) →
  (∃ pick s', call t mRUnlock pick s = Some s') ∧
  ∀ pick s', call t mRUnlock pick s = Some s' →
    reader_count_ s' = wrap32 (reader_count_ s - 1) ∧
    (h = Reading → reader_count_ s' = reader_count_ s - 1) ∧
    writer_entered_ s' = writer_entered_ s ∧
    pcs s' !! t = Some (Rest Idle) ∧ mutex_ s' = None ∧
    if writer_entered_ s && (reader_count_ s' =? 0)
    then woke_one writer_ WL56 pick t s s'
    else if negb (writer_entered_ s) && (reader_count_ s =? MAX_READERS)
         then woke_one reader_ RL77 pick t s s'
         else woke_none t s s'.
Proof.
  intros Hr Hm Ho Ht. pose proof (reachable_inv _ _ Hr) as Hinv.
  pose proof (inv_range _ Hinv) as Hrange.
  assert (Hlen : (t < length (pcs s))%nat) by by eapply lookup_lt_Some.
  split.
  - destruct (notify_one_total writer_ (set_reader_count_ (wrap32 (reader_count_ s - 1)) s))
      as (p1 & s1 & H1).
    destruct (notify_one_total reader_ (set_reader_count_ (wrap32 (reader_count_ s - 1)) s))
      as (p2 & s2 & H2).
    destruct (writer_entered_ s) eqn:Hw.
    + destruct (wrap32 (reader_count_ s - 1) =? 0) eqn:Hc.
      * exists p1. rewrite (call_RUnlock _ _ _ _ Ho Hm Ht). simpl. rewrite Hw, Hc, H1. eauto.
      * exists 0%nat. rewrite (call_RUnlock _ _ _ _ Ho Hm Ht). simpl. rewrite Hw, Hc. eauto.
    + destruct (wrap32 (reader_count_ s - 1) =? MAX_READERS - 1) eqn:Hc.
      * exists p2. rewrite (call_RUnlock _ _ _ _ Ho Hm Ht). simpl. rewrite Hw, Hc, H2. eauto.
      * exists 0%nat. rewrite (call_RUnlock _ _ _ _ Ho Hm Ht). simpl. rewrite Hw, Hc. eauto.
  - intros pick s'. rewrite (call_RUnlock _ _ _ _ Ho Hm Ht). simpl.
    rewrite wrap32_pred_max by done.
    set (c := wrap32 (reader_count_ s - 1)).
    assert (Hhold : h = Reading → c = reader_count_ s - 1).
    { intros ->. apply wrap32_pred.
      pose proof (count_pos counted _ _ _ Ht eq_refl).
      pose proof (inv_readers _ Hinv). lia. }
    assert (Hplain : woke_none t s (goto t (Rest Idle) (set_reader_count_ c s))).
    { split; [done|]. intros r Hne. by rewrite goto_others. }
    assert (Hwq : ∀ r l, pcs s !! r = Some (Waiting writer_ l) → l = WL56).
    { intros r l Hrl. pose proof (inv_wf _ Hinv _ _ Hrl). by destruct l. }
    assert (Hrq : writer_entered_ s = false →
                  ∀ r l, pcs s !! r = Some (Waiting reader_ l) → l = RL77).
    { intros Hf r l Hrl. pose proof (inv_wf _ Hinv _ _ Hrl) as Hwf.
      destruct l; try done.
      destruct (inv_queue _ Hinv _ _ Hrl) as [?|[u Hu]]; [congruence|].
      pose proof (inv_mutex _ Hinv _ _ Hu eq_refl). congruence. }
    destruct (writer_entered_ s) eqn:Hw; simpl.
    + destruct (c =? 0) eqn:Hc.
      * destruct (notify_one writer_ pick _) as [s1|] eqn:Hn; [simpl|done]. intros [= <-].
        destruct (notify_one_fields _ _ _ _ Hn) as (Hc1 & Hw1 & Hm1 & _). simpl in *.
        rewrite Hc1, Hc, Hw1, Hm1, Hm, Hw.
        pose proof (notify_one_length _ _ _ _ Hn) as Hl1. simpl in Hl1.
        rewrite list_lookup_insert_eq by congruence.
        repeat (split; [done|]). eapply woke_one_intro; eauto.
      * intros [= <-]. simpl. rewrite Hc, Hw, Hm.
        rewrite list_lookup_insert_eq by done. done.
    + destruct (reader_count_ s =? MAX_READERS) eqn:Hc.
      * destruct (notify_one reader_ pick _) as [s1|] eqn:Hn; [simpl|done]. intros [= <-].
        destruct (notify_one_fields _ _ _ _ Hn) as (Hc1 & Hw1 & Hm1 & _). simpl in *.
        rewrite Hc1, Hw1, Hm1, Hm, Hw.
        pose proof (notify_one_length _ _ _ _ Hn) as Hl1. simpl in Hl1.
        rewrite list_lookup_insert_eq by congruence.
        repeat (split; [done|]). eapply woke_one_intro; eauto.
      * intros [= <-]. simpl. rewrite Hw, Hm.
        rewrite list_lookup_insert_eq by done. done.
Qed.

(** C6. [WUnlock] clears [writer_entered_] and issues one [notify_all] on
    [reader_]: every thread parked on [reader_] -- the writers parked in the
    first loop of [WLock] (line 52) and the readers parked in [RLock]
    (line 78), and in a reachable state nobody else -- is woken and has to
    take the mutex again; threads parked on [writer_] stay parked;
    [reader_count_] is unchanged. *)
Theorem WUnlock_wakes_all n s t h pick :
  reachable n s → mutex_ s = None → object s ≠ Destroyed →
  pcs s !! t = Some (Rest h) →
  ∃ s', call t mWUnlock pick s = Some s' ∧
    writer_entered_ s' = false ∧ reader_count_ s' = reader_count_ s ∧
    mutex_ s' = None ∧ pcs s' !! t = Some (Rest Idle) ∧
    signals s' = signals s ++ [notified_all reader_] ∧
    ∀ r p, r ≠ t → pcs s !! r = Some p →
      match p with
      | Waiting reader_ l =>
          (l = WL50 ∨ l = RL77) ∧ pcs s' !! r = Some (Relock l)
      | _ => pcs s' !! r = Some p
      end.
Proof.
  intros Hr Hm Ho Ht. pose proof (reachable_inv _ _ Hr) as Hinv.
  assert (Hlen : (t < length (pcs s))%nat) by by eapply lookup_lt_Some.
  eexists. split; [by eapply call_WUnlock|]. simpl.
  repeat (split; [done|]).
  split; [apply list_lookup_insert_eq; by rewrite length_fmap|]. split; [done|].
  intros r p Hne Hp. rewrite list_lookup_insert_ne by done.
  rewrite list_lookup_fmap, Hp. simpl.
  pose proof (inv_wf _ Hinv _ _ Hp) as Hwf.
  destruct p as [| |[] l|]; try done. split; [|done].
  destruct l; simpl in Hwf; try done; auto.
Qed.

(** C9. An unmatched [RUnlock], called when [reader_count_] is 0, returns
    normally: the counter wraps to [2^32 - 1], which is [MAX_READERS]; no
    notification is issued whether or not a writer has entered; and from
    then on every [RLock] parks at line 78 instead of being let in. *)
Theorem RUnlock_underflow s t h pick :
  object s ≠ Destroyed → mutex_ s = None →
  pcs s !! t = Some (Rest h) → reader_count_ s = 0 →
  MAX_READERS = 2 ^ 32 - 1 ∧
  call t mRUnlock pick s =
    Some (goto t (Rest Idle) (set_reader_count_ MAX_READERS s)) ∧
  woke_none t s (goto t (Rest Idle) (set_reader_count_ MAX_READERS s)) ∧
  ∀ r pick' h',
    pcs (goto t (Rest Idle) (set_reader_count_ MAX_READERS s)) !! r = Some (Rest h') →
    call r mRLock pick' (goto t (Rest Idle) (set_reader_count_ MAX_READERS s)) =
      Some (goto r (Waiting reader_ RL77)
              (goto t (Rest Idle) (set_reader_count_ MAX_READERS s))).
Proof.
  intros Ho Hm Ht Hc. split; [done|]. split; [|split].
  - rewrite (call_RUnlock _ _ _ _ Ho Hm Ht). simpl. rewrite Hc.
    change (wrap32 (0 - 1)) with MAX_READERS.
    change (MAX_READERS =? 0) with false.
    change (MAX_READERS =? MAX_READERS - 1) with false.
    by destruct (writer_entered_ s).
  - split; [done|]. intros r Hne. by rewrite goto_others.
  - intros r pick' h' Hr. erewrite call_RLock; [|done|done|exact Hr].
    simpl. rewrite ?Z.eqb_refl, orb_true_r. done.
Qed.

(** C10. Frame: a statement of [RLock] or [RUnlock] leaves
    [writer_entered_] as it was, and a statement of [WLock] or [WUnlock]
    leaves [reader_count_] as it was; entering a method, waking up and the
    destructor change neither. *)
Theorem frame_of_modes e s s' :
  exec e s = Some s' →
  match acting e s with
  | Some mRLock | Some mRUnlock => writer_entered_ s' = writer_entered_ s
  | Some mWLock | Some mWUnlock => reader_count_ s' = reader_count_ s
  | None =>
      writer_entered_ s' = writer_entered_ s ∧ reader_count_ s' = reader_count_ s
  end.
Proof.
  intros He. apply exec_untouched in He.
  destruct (acting e s) as [[]|]; exact He.
Qed.

(** ** Readers one after the other *)

Lemma calls_RLock ts s :
  object s ≠ Destroyed → mutex_ s = None → writer_entered_ s = false →
  0 ≤ reader_count_ s → reader_count_ s + Z.of_nat (length ts) ≤ MAX_READERS →
  Forall (λ r, ∃ h, pcs s !! r = Some (Rest h)) ts →
  calls mRLock ts s =
    Some (set_reader_count_ (reader_count_ s + Z.of_nat (length ts))
            (set_pcs (all_at (Rest Reading) ts (pcs s)) s)).
Proof.
  revert s. induction ts as [|t ts IH]; intros s Ho Hm Hw H0 Hmax Hrest.
  { simpl. f_equal. state_eq. lia. }
  apply Forall_cons in Hrest as [[h Ht] Hrest]. simpl in Hmax |- *.
  assert (Hlen : (t < length (pcs s))%nat) by by eapply lookup_lt_Some.
  rewrite (call_RLock _ _ _ _ Ho Hm Ht), Hw. simpl.
  assert ((reader_count_ s =? MAX_READERS) = false) as -> by (apply Z.eqb_neq; lia).
  rewrite wrap32_small by (unfold MAX_READERS in *; lia). simpl.
  rewrite IH; simpl; try done; try lia.
  - f_equal. state_eq. lia.
  - eapply Forall_impl; [exact Hrest|]. intros r [h' Hr]. simpl.
    destruct (decide (r = t)) as [->|Hne].
    + rewrite list_lookup_insert_eq by done. eauto.
    + rewrite list_lookup_insert_ne by done. eauto.
Qed.

(** C4. [RLock], by a caller that finds the mutex free, parks on [reader_]
    at line 78 exactly when a writer has entered or [reader_count_] equals
    [MAX_READERS], and changes nothing else then; otherwise it adds exactly
    one to [reader_count_] and returns.  A reader woken inside the loop
    makes the same test again.  Readers do not exclude one another: as long
    as no writer has entered and the count stays within [MAX_READERS], any
    threads [ts] calling in turn are all let in and hold the latch together. *)
Theorem RLock_admission n s t pick ts :
  reachable n s → mutex_ s = None → object s ≠ Destroyed →
  ((∃ h, pcs s !! t = Some (Rest h)) →
     call t mRLock pick s =
       Some (if writer_entered_ s || (reader_count_ s =? MAX_READERS)
             then goto t (Waiting reader_ RL77) s
             else goto t (Rest Reading) (set_reader_count_ (reader_count_ s + 1) s))) ∧
  (pcs s !! t = Some (Relock RL77) →
     resume t pick s =
       Some (if writer_entered_ s || (reader_count_ s =? MAX_READERS)
             then goto t (Waiting reader_ RL77) s
             else goto t (Rest Reading) (set_reader_count_ (reader_count_ s + 1) s))) ∧
  (writer_entered_ s = false →
   reader_count_ s + Z.of_nat (length ts) ≤ MAX_READERS →
   Forall (λ r, ∃ h, pcs s !! r = Some (Rest h)) ts →
   calls mRLock ts s =
     Some (set_reader_count_ (reader_count_ s + Z.of_nat (length ts))
             (set_pcs (all_at (Rest Reading) ts (pcs s)) s))).
Proof.
  intros Hr Hm Ho. pose proof (reachable_inv _ _ Hr) as Hinv.
  pose proof (inv_range _ Hinv) as Hrange.
  assert (Hwrap : (reader_count_ s =? MAX_READERS) = false →
                  wrap32 (reader_count_ s + 1) = reader_count_ s + 1).
  { intros Hne%Z.eqb_neq. apply wrap32_small. unfold MAX_READERS in *. lia. }
  split; [|split].
  - intros [h Ht]. rewrite (call_RLock _ _ _ _ Ho Hm Ht).
    destruct (writer_entered_ s); [done|]. simpl.
    destruct (reader_count_ s =? MAX_READERS) eqn:Hc; [done|]. by rewrite Hwrap.
  - intros Ht. rewrite (resume_RLock _ _ _ Ho Hm Ht).
    destruct (writer_entered_ s); [done|]. simpl.
    destruct (reader_count_ s =? MAX_READERS) eqn:Hc; [done|]. by rewrite Hwrap.
  - intros Hw Hmax Hrest. apply calls_RLock; try done. lia.
Qed.

(** ** Releasing one after the other *)

Lemma notify_one_nobody cv pick s :
  (∀ r p, pcs s !! r = Some p → waiting_on cv p = false) →
  notify_one cv pick s = Some (emit (notified_one cv) s).
Proof.
  intros Hno. unfold notify_one.
  destruct (existsb (waiting_on cv) (pcs s)) eqn:He; [|done].
  apply existsb_exists in He as (p & Hin & Hw).
  apply list_elem_of_In, list_elem_of_lookup in Hin as [i Hi].
  rewrite (Hno _ _ Hi) in Hw. done.
Qed.

Lemma calls_RUnlock ts s :
  object s ≠ Destroyed → mutex_ s = None → writer_entered_ s = false →
  (∀ r p, pcs s !! r = Some p → waiting_on reader_ p = false) →
  Z.of_nat (length ts) ≤ reader_count_ s ≤ MAX_READERS →
  Forall (λ r, ∃ h, pcs s !! r = Some (Rest h)) ts →
  ∃ g, calls mRUnlock ts s =
         Some (mkState None (reader_count_ s - Z.of_nat (length ts)) false
                 (all_at (Rest Idle) ts (pcs s)) (object s) g).
Proof.
  revert s. induction ts as [|t ts IH]; intros s Ho Hm Hw Hno Hc Hrest.
  { exists (signals s). simpl. f_equal. state_eq. lia. }
  apply Forall_cons in Hrest as [[h Ht] Hrest]. simpl in Hc |- *.
  assert (Hlen : (t < length (pcs s))%nat) by by eapply lookup_lt_Some.
  rewrite (call_RUnlock _ _ _ _ Ho Hm Ht), Hw. simpl.
  rewrite wrap32_pred by lia.
  rewrite notify_one_nobody by done. simpl.
  set (s1 := goto t (Rest Idle) (set_reader_count_ (reader_count_ s - 1) s)).
  assert (Hrest1 : Forall (λ r, ∃ h, pcs s1 !! r = Some (Rest h)) ts).
  { eapply Forall_impl; [exact Hrest|]. intros r [h' Hr]. simpl.
    destruct (decide (r = t)) as [->|Hne].
    - rewrite list_lookup_insert_eq by done. eauto.
    - rewrite list_lookup_insert_ne by done. eauto. }
  assert (Hno1 : ∀ r p, pcs s1 !! r = Some p → waiting_on reader_ p = false).
  { intros r p Hp. apply lookup_goto in Hp as [[_ ->]|[_ Hp]]; [done|]. eauto. }
  destruct (reader_count_ s - 1 =? MAX_READERS - 1).
  - destruct (IH (goto t (Rest Idle) (emit (notified_one reader_)
                    (set_reader_count_ (reader_count_ s - 1) s)))) as [g Hg];
      simpl; try done; try lia.
    exists g. rewrite Hg. f_equal. f_equal. cbn [reader_count_ goto emit set_pcs set_reader_count_]. lia.
  - destruct (IH s1) as [g Hg]; simpl; try done; try lia.
    exists g. rewrite Hg. f_equal. f_equal. unfold s1. cbn [reader_count_ goto emit set_pcs set_reader_count_]. lia.
Qed.

Lemma all_at_seq p (l1 l2 : list pc) :
  all_at p (seq 0 (length l1)) (l1 ++ l2) = replicate (length l1) p ++ l2.
Proof.
  revert l2. induction l1 as [|x l1 IH] using rev_ind; intros l2; [done|].
  rewrite length_app. simpl. rewrite Nat.add_1_r, seq_S. simpl.
  unfold all_at in *. rewrite foldl_app. simpl.
  rewrite <- (assoc_L (++)). rewrite IH. simpl.
  rewrite insert_app_r_alt by (by rewrite length_replicate).
  rewrite length_replicate, Nat.sub_diag. simpl.
  change (p :: replicate (length l1) p ++ l2) with ((p :: replicate (length l1) p) ++ l2).
  rewrite replicate_cons_app, <- (assoc_L (++)). done.
Qed.

#[local] Arguments replicate : simpl never.

Lemma all_at_replicate p q N (l2 : list pc) :
  all_at p (seq 0 N) (replicate N q ++ l2) = replicate N p ++ l2.
Proof.
  pose proof (all_at_seq p (replicate N q) l2) as H.
  by rewrite length_replicate in H.
Qed.

(** C7. Balance and reuse.  For every [N] within [MAX_READERS]: from the
    initial state, [N] threads acquire the read latch one after the other
    and all hold it; when the same [N] threads have released it, the latch
    is idle again ([reader_count_] 0, [writer_entered_] clear, mutex free,
    every thread back in client code); a [WLock] then returns at once,
    without parking.  A [WLock] followed by [WUnlock] from the initial state
    gives the initial state back (with the [notify_all] on record). *)
Theorem release_balance N :
  Z.of_nat N ≤ MAX_READERS →
  ∃ s1 s2,
    calls mRLock (seq 0 N) (init (S N)) = Some s1 ∧
    pcs s1 = replicate N (Rest Reading) ++ [Rest Idle] ∧
    reader_count_ s1 = Z.of_nat N ∧
    calls mRUnlock (seq 0 N) s1 = Some s2 ∧
    mutex_ s2 = None ∧ reader_count_ s2 = 0 ∧ writer_entered_ s2 = false ∧
    pcs s2 = replicate (S N) (Rest Idle) ∧ object s2 = Alive ∧
    call N mWLock N s2 = Some (goto N (Rest Writing) (set_writer_entered_ true s2)) ∧
    call N mWLock N (init (S N)) ≫= call N mWUnlock N =
      Some (emit (notified_all reader_) (init (S N))).
Proof.
  intros HN.
  assert (Hpcs : ∀ p, all_at p (seq 0 N) (replicate (S N) (Rest Idle) : list pc)
                      = replicate N p ++ [Rest Idle]).
  { intros p. rewrite replicate_S_end. apply all_at_replicate. }
  assert (Hpcs' : all_at (Rest Idle) (seq 0 N) (replicate N (Rest Reading) ++ [Rest Idle])
                  = replicate (S N) (Rest Idle)).
  { by rewrite all_at_replicate, replicate_S_end. }
  pose proof (calls_RLock (seq 0 N) (init (S N))) as H1. simpl in H1.
  rewrite length_seq, Hpcs in H1.
  rewrite H1; try done.
  2:{ apply Forall_seq. intros r Hr. exists Idle. apply lookup_replicate_2. lia. }
  eexists.
  destruct (calls_RUnlock (seq 0 N)
     (mkState None (0 + Z.of_nat N) false (replicate N (Rest Reading) ++ [Rest Idle]) Alive []))
    as [g Hg]; simpl; try done.
  { intros r p Hp. apply lookup_app_Some in Hp as [Hp|[_ Hp]].
    - by apply lookup_replicate in Hp as [-> _].
    - apply list_lookup_singleton_Some in Hp as [_ <-]. done. }
  { rewrite length_seq. lia. }
  { apply Forall_seq. intros r Hr. exists Reading.
    rewrite lookup_app_l by (rewrite length_replicate; lia).
    apply lookup_replicate_2. lia. }
  cbn [pcs reader_count_ object] in Hg. rewrite length_seq, Hpcs' in Hg.
  eexists. split; [done|]. split; [done|]. split; [simpl; lia|].
  split; [exact Hg|]. simpl. split; [done|]. split; [lia|].
  split; [done|]. split; [done|]. split; [done|].
  assert (HNl : replicate (S N) (Rest Idle) !! N = Some (Rest Idle))
    by (apply lookup_replicate_2; lia).
  split.
  - erewrite call_WLock; [|done|done|exact HNl]. simpl.
    replace (0 + Z.of_nat N - Z.of_nat N) with 0 by lia. done.
  - erewrite call_WLock; [|done|done|exact HNl]. simpl.
    erewrite call_WUnlock; [|done|done|]; simpl.
    2:{ apply list_lookup_insert_eq. rewrite length_replicate. lia. }
    f_equal. unfold init. state_eq.
    rewrite list_fmap_insert, list_insert_insert_eq, fmap_replicate.
    apply insert_replicate.
Qed.

(** ** While a writer is announced *)

Lemma count_pointwise (P : pc → bool) (l' l : list pc) :
  (∀ r q, l' !! r = Some q → P q = true → ∃ q0, l !! r = Some q0 ∧ P q0 = true) →
  (count P l' ≤ count P l)%nat.
Proof.
  revert l. induction l' as [|a l' IH]; intros l H; simpl; [lia|].
  destruct l as [|b l].
  - destruct (P a) eqn:Ha.
    + destruct (H 0%nat a eq_refl Ha) as (? & ? & _). done.
    + simpl. apply (IH []). intros r q Hq HP.
      destruct (H (S r) q Hq HP) as (? & ? & _). done.
  - simpl. assert (count P l' ≤ count P l)%nat.
    { apply IH. intros r q Hq HP. exact (H (S r) q Hq HP). }
    destruct (P a) eqn:Ha; [|lia].
    destruct (H 0%nat a eq_refl Ha) as (q0 & [= <-] & ->). lia.
Qed.

Lemma next_announced p q :
  announced p = true → q ∈ next p → (∃ l, p = At l ∨ p = Relock l) →
  announced q = true ∨ p = At WU67.
Proof.
  intros Ha Hq [l [-> | ->]]; destruct l; simpl in *; try done;
    rewrite ?elem_of_cons, ?list_elem_of_singleton, ?elem_of_nil in Hq;
    repeat destruct Hq as [Hq|Hq]; subst; auto; done.
Qed.

Lemma next_counted p q :
  counted q = true → q ∈ next p → (∃ l, p = At l ∨ p = Relock l) →
  well_formed p = true →
  counted p = true ∨ p = At RL80.
Proof.
  intros Ha Hq [l [-> | ->]] Hwf; destruct l; simpl in *; try done;
    rewrite ?elem_of_cons, ?list_elem_of_singleton, ?elem_of_nil in Hq;
    repeat destruct Hq as [Hq|Hq]; subst; simpl in *; auto; done.
Qed.

Lemma before_release_step s w p e s' :
  inv s → pcs s !! w = Some p → announced p = true →
  contract e s = true → releases w e s = false → exec e s = Some s' →
  (∃ p', pcs s' !! w = Some p' ∧ announced p' = true) ∧
  (∀ r q, pcs s' !! r = Some q → counted q = true →
          ∃ q0, pcs s !! r = Some q0 ∧ counted q0 = true).
Proof.
  intros Hinv Hw Ha Hc Hrel He.
  pose proof (announced_entered _ _ _ Hinv Hw Ha) as Hflag.
  split.
  - assert (Hlen : (w < length (pcs s'))%nat).
    { rewrite (exec_length _ _ _ He). by eapply lookup_lt_Some. }
    apply lookup_lt_is_Some in Hlen as [p' Hp']. exists p'. split; [done|].
    destruct (exec_pcs _ _ _ _ _ He Hp') as (p0 & Hp0 & Hcase). simplify_eq.
    destruct Hcase as [->|[[cv ->]|Hmove]]; [done|by rewrite wake_on_announced|].
    destruct e as [t m|t c|t|]; simpl in *.
    + destruct Hmove as (-> & [h ->] & ->). rewrite Hw in Hc.
      by destruct m, h.
    + destruct Hmove as (-> & Hn & Hl).
      destruct (next_announced _ _ Ha Hn Hl) as [?| ->]; [done|].
      rewrite Hw in Hrel. by rewrite !bool_decide_eq_true_2 in Hrel.
    + destruct Hmove as (-> & ->). by destruct p as [| |? []|].
    + done.
  - intros r q Hq Hcq.
    destruct (exec_pcs _ _ _ _ _ He Hq) as (q0 & Hq0 & Hcase).
    exists q0. split; [done|].
    destruct Hcase as [->|[[cv ->]|Hmove]]; [done|by rewrite wake_on_counted in Hcq|].
    destruct e as [t m|t c|t|]; simpl in *.
    + destruct Hmove as (-> & [h ->] & ->). rewrite Hq0 in Hc.
      by destruct m, h.
    + destruct Hmove as (-> & Hn & Hl).
      destruct (next_counted _ _ Hcq Hn Hl (inv_wf _ Hinv _ _ Hq0)) as [?| ->]; [done|].
      pose proof (inv_local _ Hinv _ _ Hq0) as [Hf _]. congruence.
    + destruct Hmove as (-> & ->). by destruct q0.
    + done.
Qed.

Lemma before_release_run w tr s0 p0 s :
  inv s0 → pcs s0 !! w = Some p0 → announced p0 = true →
  run_before_release w tr s0 = Some s →
  inv s ∧
  (∃ p, pcs s !! w = Some p ∧ announced p = true) ∧
  (∀ r q, pcs s !! r = Some q → counted q = true →
          ∃ q0, pcs s0 !! r = Some q0 ∧ counted q0 = true).
Proof.
  unfold run_before_release.
  revert s0 p0. induction tr as [|e tr IH]; intros s0 p0 Hinv Hw Ha; simpl.
  { intros [= <-]. eauto 10. }
  destruct (contract e s0) eqn:Hc; simpl; [|done].
  destruct (releases w e s0) eqn:Hrel; simpl; [done|].
  destruct (exec e s0) as [s1|] eqn:He; [simpl|done]. intros Hrun.
  destruct (before_release_step _ _ _ _ _ Hinv Hw Ha Hc Hrel He) as ((p1 & Hp1 & Ha1) & Hsub).
  destruct (IH s1 p1) as (Hinv' & Hw' & Hsub'); try done.
  { by eapply inv_exec. }
  split; [done|]. split; [done|].
  intros r q Hq Hcq. destruct (Hsub' _ _ Hq Hcq) as (q1 & Hq1 & Hcq1). eauto.
Qed.

(** C2. Writer preference.  Let thread [w] be the announced writer in a
    reachable state [s0]: it has set [writer_entered_] at line 54 and not
    yet cleared it.  Along every schedule of contract-abiding callers in
    which [w] has not yet executed line 67 of its [WUnlock],
    [writer_entered_] stays set and [w] stays the announced writer; every
    thread accounted as a reader at the end already was in [s0], so nobody
    is let in and [reader_count_] does not grow; and an [RLock] called at
    the end parks at line 78. *)
Theorem writer_preference n s0 w p0 tr s :
  reachable n s0 → pcs s0 !! w = Some p0 → announced p0 = true →
  run_before_release w tr s0 = Some s →
  writer_entered_ s = true ∧
  (∃ p, pcs s !! w = Some p ∧ announced p = true) ∧
  (∀ r q, pcs s !! r = Some q → counted q = true →
          ∃ q0, pcs s0 !! r = Some q0 ∧ counted q0 = true) ∧
  reader_count_ s ≤ reader_count_ s0 ∧
  (∀ r h pick, pcs s !! r = Some (Rest h) → mutex_ s = None → object s ≠ Destroyed →
     call r mRLock pick s = Some (goto r (Waiting reader_ RL77) s)).
Proof.
  intros Hr Hw Ha Hrun. pose proof (reachable_inv _ _ Hr) as Hinv0.
  destruct (before_release_run _ _ _ _ _ Hinv0 Hw Ha Hrun) as (Hinv & (p & Hp & Hap) & Hsub).
  pose proof (announced_entered _ _ _ Hinv Hp Hap) as Hflag.
  split; [done|]. split; [eauto|]. split; [done|]. split.
  - rewrite (inv_readers _ Hinv), (inv_readers _ Hinv0).
    apply inj_le, count_pointwise. exact Hsub.
  - intros r h pick Hrest Hm Ho. rewrite (call_RLock _ _ _ _ Ho Hm Hrest), Hflag. done.
Qed.

(** ** The example schedule *)

Example unmatched_release_run :
  run unmatched_release (init 3) =
    Some (mkState None MAX_READERS false [Rest Idle; Rest Idle; Rest Idle] Alive [])
  ∧ run_ok unmatched_release (init 3) = None.
Proof. split; vm_compute; reflexivity. Qed.

Lemma draining_reachable : reachable 3 draining_state.
Proof. exists announces. vm_compute. reflexivity. Defined.

Lemma writing_reachable : reachable 3 writing_state.
Proof. exists reader_then_writer. vm_compute. reflexivity. Defined.

Lemma reading_reachable : reachable 3 reading_state.
Proof. exists reads. vm_compute. reflexivity. Defined.

Lemma releasing_reachable : reachable 3 releasing_state.
Proof. exists releasing. vm_compute. reflexivity. Defined.

Lemma contended_reachable : reachable 3 contended_state.
Proof. exists contended. vm_compute. reflexivity. Defined.

Lemma entered_reachable : reachable 3 entered_state.
Proof. exists enters. vm_compute. reflexivity. Defined.

Lemma finalizing_reachable : reachable 3 finalizing_state.
Proof. exists overtaking. vm_compute. reflexivity. Defined.

(** ** The theorems at work on the example *)

Lemma mutual_exclusion_witness :
  reachable 3 writing_state ∧
  ∀ r q, pcs writing_state !! r = Some q → counted q = false.
Proof.
  split; [exact writing_reachable|].
  destruct (mutual_exclusion 3 writing_state writing_reachable) as [H _].
  destruct (H 1%nat (Rest Writing)) as (_ & _ & Hno);
    [reflexivity|reflexivity|exact Hno].
Defined.

Lemma writer_preference_witness :
  reachable 3 draining_state ∧
  run_before_release 1 late_reader draining_state = Some refused_state ∧
  reader_count_ refused_state ≤ reader_count_ draining_state.
Proof.
  split; [exact draining_reachable|]. split; [vm_compute; reflexivity|].
  destruct (writer_preference 3 draining_state 1 (Waiting writer_ WL56)
              late_reader refused_state) as (_ & _ & _ & Hle & _);
    [exact draining_reachable|reflexivity|reflexivity|vm_compute; reflexivity|].
  exact Hle.
Defined.

Lemma WLock_two_phases_witness :
  reachable 3 draining_state ∧
  call 2 mWLock 2 draining_state =
    Some (goto 2 (Waiting reader_ WL50) draining_state).
Proof.
  split; [exact draining_reachable|].
  destruct (WLock_two_phases 3 draining_state 2 2 draining_reachable) as [H _].
  destruct H as [H _]; [reflexivity|discriminate|].
  apply H. exists Idle. reflexivity.
Defined.

Lemma RLock_admission_witness :
  reachable 3 reading_state ∧
  calls mRLock [1; 2]%nat reading_state =
    Some (mkState None 3 false [Rest Reading; Rest Reading; Rest Reading] Alive []).
Proof.
  split; [exact reading_reachable|].
  destruct (RLock_admission 3 reading_state 1 1 [1; 2]%nat reading_reachable)
    as (_ & _ & H); [reflexivity|discriminate|].
  apply H; [reflexivity|vm_compute; discriminate|].
  repeat constructor; exists Idle; reflexivity.
Defined.

Lemma RUnlock_wake_policy_witness :
  reachable 3 draining_state ∧
  ∃ pick s', call 0 mRUnlock pick draining_state = Some s'.
Proof.
  split; [exact draining_reachable|].
  destruct (RUnlock_wake_policy 3 draining_state 0 Reading draining_reachable)
    as [H _]; [reflexivity|discriminate|reflexivity|].
  exact H.
Defined.

Lemma WUnlock_wakes_all_witness :
  reachable 3 contended_state ∧
  ∃ s', call 1 mWUnlock 1 contended_state = Some s' ∧ writer_entered_ s' = false ∧
        pcs s' !! 0%nat = Some (Relock RL77) ∧ pcs s' !! 2%nat = Some (Relock WL50).
Proof.
  split; [exact contended_reachable|].
  destruct (WUnlock_wakes_all 3 contended_state 1 Writing 1 contended_reachable)
    as (s' & Hc & Hw & _ & _ & _ & _ & Hall); [reflexivity|discriminate|reflexivity|].
  exists s'. split; [exact Hc|]. split; [exact Hw|]. split.
  - apply (Hall 0%nat (Waiting reader_ RL77)); [discriminate|reflexivity].
  - apply (Hall 2%nat (Waiting reader_ WL50)); [discriminate|reflexivity].
Defined.

Lemma release_balance_witness :
  Z.of_nat 2 ≤ MAX_READERS ∧
  ∃ s1, calls mRLock (seq 0 2) (init 3) = Some s1 ∧ reader_count_ s1 = 2.
Proof.
  assert (H2 : Z.of_nat 2 ≤ MAX_READERS) by (vm_compute; discriminate).
  split; [exact H2|].
  destruct (release_balance 2 H2) as (s1 & s2 & H1 & _ & Hc & _).
  exists s1. split; [exact H1|exact Hc].
Defined.



Lemma RUnlock_underflow_witness :
  reader_count_ (init 3) = 0 ∧
  call 0 mRUnlock 0 (init 3) =
    Some (goto 0 (Rest Idle) (set_reader_count_ MAX_READERS (init 3))).
Proof.
  split; [reflexivity|].
  destruct (RUnlock_underflow (init 3) 0 Idle 0) as (_ & H & _);
    [discriminate|reflexivity|reflexivity|reflexivity|].
  exact H.
Defined.

Lemma frame_of_modes_witness :
  exec (Step 0 0) incrementing_state = Some incremented_state ∧
  writer_entered_ incremented_state = writer_entered_ incrementing_state.
Proof.
  assert (He : exec (Step 0 0) incrementing_state = Some incremented_state)
    by (vm_compute; reflexivity).
  split; [exact He|].
  exact (frame_of_modes (Step 0 0) incrementing_state incremented_state He).
Defined.

(** * More of the latch's behaviour *)

(** ** What one statement does *)

Lemma statement_fields t pick l s s' :
  statement t pick l s = Some s' →
  writer_entered_ s' =
    match l with
    | WL54 => true
    | WU67 => false
    | _ => writer_entered_ s
    end ∧
  reader_count_ s' =
    match l with
    | RL80 => wrap32 (reader_count_ s + 1)
    | RU88 => wrap32 (reader_count_ s - 1)
    | _ => reader_count_ s
    end.
Proof.
  unfold statement, WLock, WUnlock, RLock, RUnlock, wait, unlock, lock, notify_all;
    destruct l; simpl; repeat case_match; try done; intros Hs; simplify_eq/=; try done.
  - destruct (notify_one writer_ pick s) as [s1|] eqn:Hn; simplify_eq/=.
    by apply notify_one_fields in Hn as (? & ? & _).
  - destruct (notify_one reader_ pick s) as [s1|] eqn:Hn; simplify_eq/=.
    by apply notify_one_fields in Hn as (? & ? & _).
Qed.

Lemma statement_target t pick l s s' :
  pcs s !! t = Some (At l) → statement t pick l s = Some s' →
  pcs s' !! t = Some (target l s).
Proof.
  intros Ht. assert (Hlen : (t < length (pcs s))%nat) by by eapply lookup_lt_Some.
  unfold statement, WLock, WUnlock, RLock, RUnlock, wait, unlock, lock, notify_all;
    destruct l; simpl; repeat case_match; try done; intros Hs; simplify_eq/=;
    try (by apply list_lookup_insert_eq).
  - apply list_lookup_insert_eq. by rewrite length_fmap.
  - destruct (notify_one writer_ pick s) as [s1|] eqn:Hn; simplify_eq/=.
    apply list_lookup_insert_eq. by rewrite (notify_one_length _ _ _ _ Hn).
  - destruct (notify_one reader_ pick s) as [s1|] eqn:Hn; simplify_eq/=.
    apply list_lookup_insert_eq. by rewrite (notify_one_length _ _ _ _ Hn).
Qed.

(** Only statements touch the two data members. *)
Lemma exec_fields e s s' :
  exec e s = Some s' →
  (∃ t pick l, e = Step t pick ∧ pcs s !! t = Some (At l) ∧
               statement t pick l s = Some s') ∨
  (writer_entered_ s' = writer_entered_ s ∧ reader_count_ s' = reader_count_ s ∧
   ∀ t l, e = Step t l → ∃ l', pcs s !! t = Some (Relock l')).
Proof.
  unfold exec. destruct e as [t m|t c|t|]; simpl.
  - destruct (pcs s !! t) as [[h| | |]|]; try done. intros [= <-]. right. done.
  - destruct (pcs s !! t) as [[h|l|cv l|l]|] eqn:Ht; try done.
    + intros Hs. left. eauto 10.
    + unfold lock. destruct (mutex_ s); [done|]. intros [= <-]. right.
      repeat (split; [done|]). intros ? ? [= <- _]. eauto.
  - destruct (pcs s !! t) as [[h|l|cv l|l]|]; try done. intros [= <-]. right. done.
  - unfold destructor. right. repeat case_match; try done; by simplify_eq/=.
Qed.

(** A thread that is not the one moving stays where it is, unless it is
    woken. *)
Lemma exec_stays e s s' u p :
  exec e s = Some s' → pcs s !! u = Some p →
  (∀ cv l, p ≠ Waiting cv l) →
  (∀ t m, e = Call t m → t ≠ u) → (∀ t c, e = Step t c → t ≠ u) →
  pcs s' !! u = Some p.
Proof.
  intros He Hu Hnw Hcall Hstep.
  assert (Hlen : (u < length (pcs s'))%nat).
  { rewrite (exec_length _ _ _ He). by eapply lookup_lt_Some. }
  apply lookup_lt_is_Some in Hlen as [q Hq].
  destruct (exec_pcs _ _ _ _ _ He Hq) as (p' & Hp' & Hcase). simplify_eq.
  destruct Hcase as [->|[[cv ->]|Hmove]]; [done| |].
  - unfold wake_on. destruct p; try done. by destruct (Hnw cv0 l).
  - destruct e as [t m|t c|t|]; simpl in *.
    + destruct Hmove as (Heq & _). exfalso. by apply (Hcall t m).
    + destruct Hmove as (Heq & _). exfalso. by apply (Hstep t c).
    + destruct Hmove as (_ & ->). destruct p; try done. by destruct (Hnw cv l).
    + done.
Qed.

(** A thread found parked after an event was parked before it, or has just
    parked itself because its loop condition held. *)
Lemma exec_parked e s s' r cv l :
  exec e s = Some s' → pcs s' !! r = Some (Waiting cv l) →
  pcs s !! r = Some (Waiting cv l) ∨
  (pcs s !! r = Some (At l) ∧ waits l s = true ∧
   writer_entered_ s' = writer_entered_ s ∧ reader_count_ s' = reader_count_ s).
Proof.
  intros He Hq. destruct (exec_pcs _ _ _ _ _ He Hq) as (p & Hp & Hcase).
  destruct Hcase as [<-|[[cv' Hw]|Hmove]]; [by left| |].
  - left. rewrite Hp. f_equal. revert Hw. unfold wake_on.
    destruct p; simpl; try done. by case_bool_decide.
  - destruct e as [t m|t c|t|]; simpl in *.
    + by destruct Hmove as (_ & _ & ?).
    + destruct Hmove as (-> & Hn & [l' [-> | ->]]).
      * right. destruct (exec_fields _ _ _ He) as [(t' & c' & l0 & [= <- <-] & Ht' & Hs)|(_ & _ & H)].
        -- simplify_eq. pose proof (statement_target _ _ _ _ _ Hp Hs) as Htg.
           pose proof (statement_fields _ _ _ _ _ Hs) as [Hf Hc].
           rewrite Hq in Htg.
           destruct l'; simpl in *; repeat case_match; simplify_eq; done.
        -- destruct (H _ _ eq_refl) as [? ?]. congruence.
      * simpl in Hn. by apply list_elem_of_singleton in Hn.
    + destruct Hmove as (_ & Hw). by destruct p.
    + done.
Qed.

(** ** Reachable states *)

Lemma run_with_length ok tr s s' :
  run_with ok tr s = Some s' → length (pcs s') = length (pcs s).
Proof.
  revert s. induction tr as [|e tr IH]; intros s; simpl; [by intros [= <-]|].
  destruct (ok e s); [|done].
  destruct (exec e s) as [s1|] eqn:He; [simpl|done]. intros Hr.
  rewrite (IH _ Hr). by eapply exec_length.
Qed.

Lemma reachable_length n s : reachable n s → length (pcs s) = n.
Proof.
  intros [tr Htr]. rewrite (run_with_length _ _ _ _ Htr). simpl.
  apply length_replicate.
Qed.

(** An invariant of contract-abiding events holds in every reachable state. *)
Lemma reachable_ind (P : State → Prop) n :
  P (init n) →
  (∀ e s s', reachable n s → P s → contract e s = true →
             exec e s = Some s' → P s') →
  ∀ s, reachable n s → P s.
Proof.
  intros H0 Hstep s [tr Htr].
  assert (Hgen : ∀ tr s0 s, reachable n s0 → P s0 →
                            run_ok tr s0 = Some s → P s).
  { clear s tr Htr. unfold run_ok.
    induction tr as [|e tr IH]; intros s0 s Hr HP; simpl; [by intros [= <-]|].
    destruct (contract e s0) eqn:Hc; [|done].
    destruct (exec e s0) as [s1|] eqn:He; [simpl|done]. intros Hrun.
    apply (IH s1); [|by eapply Hstep|done].
    apply (reachable_run_ok _ _ [e] _ Hr). unfold run_ok. simpl. by rewrite Hc, He. }
  apply (Hgen tr (init n)); [by exists []|done|done].
Qed.

Lemma count_le_length (P : pc → bool) (l : list pc) : (count P l ≤ length l)%nat.
Proof. induction l as [|a l IH]; simpl; [lia|]. destruct (P a); lia. Qed.

Lemma count_lt_length (P : pc → bool) (l : list pc) t p :
  l !! t = Some p → P p = false → (count P l < length l)%nat.
Proof.
  revert t. induction l as [|a l IH]; intros [|t] Hl Hp; simplify_eq/=.
  - rewrite Hp. pose proof (count_le_length P l). lia.
  - specialize (IH _ Hl Hp). destruct (P a); lia.
Qed.

(** X1. The internal mutex is exclusive: in every reachable state at most one
    thread is at a statement that reads or writes [reader_count_] or
    [writer_entered_] (any statement between taking and dropping a guard),
    and that thread is the owner of [mutex_]. *)
Theorem mutex_exclusive n s t1 t2 p1 p2 :
  reachable n s →
  pcs s !! t1 = Some p1 → in_mutex p1 = true →
  pcs s !! t2 = Some p2 → in_mutex p2 = true →
  t1 = t2 ∧ mutex_ s = Some (Thread t1) ∧ object s ≠ Finalizing.
Proof.
  intros Hinv%reachable_inv H1 Hm1 H2 Hm2.
  pose proof (inv_mutex _ Hinv _ _ H1 Hm1) as Ho1.
  pose proof (inv_mutex _ Hinv _ _ H2 Hm2) as Ho2.
  split; [congruence|]. split; [done|].
  intros Hf. apply (inv_dtor _ Hinv) in Hf. congruence.
Qed.

(** X2. [reader_count_] is exact and never wraps under the contract: in
    every reachable state of an [n]-thread program it is the number of
    threads between their line 80 and their line 88, it lies between 0 and
    both [n] and [MAX_READERS], the increment of line 80 finds it below
    [MAX_READERS] and the decrement of line 88 finds it above 0. *)
Theorem reader_count_exact n s :
  reachable n s →
  reader_count_ s = Z.of_nat (count counted (pcs s)) ∧
  0 ≤ reader_count_ s ≤ Z.min (Z.of_nat n) MAX_READERS ∧
  (∀ t, pcs s !! t = Some (At RL80) →
        wrap32 (reader_count_ s + 1) = reader_count_ s + 1 ∧
        reader_count_ s + 1 ≤ MAX_READERS) ∧
  (∀ t, pcs s !! t = Some (At RU88) →
        wrap32 (reader_count_ s - 1) = reader_count_ s - 1 ∧
        0 ≤ reader_count_ s - 1).
Proof.
  intros Hr. pose proof (reachable_inv _ _ Hr) as Hinv.
  pose proof (inv_range _ Hinv) as Hrange. pose proof (inv_readers _ Hinv) as Hc.
  pose proof (reachable_length _ _ Hr) as Hlen.
  pose proof (count_le_length counted (pcs s)).
  split; [done|]. split; [lia|]. split.
  - intros t Ht. pose proof (inv_local _ Hinv _ _ Ht) as [_ Hlt]. simpl in Hlt.
    split; [|lia]. apply wrap32_small. unfold MAX_READERS in *. lia.
  - intros t Ht. pose proof (count_pos counted _ _ _ Ht eq_refl).
    split; [|lia]. apply wrap32_pred. lia.
Qed.

Lemma exec_stays_At e s s' u l :
  exec e s = Some s' → pcs s !! u = Some (At l) →
  (∀ c, e ≠ Step u c) → pcs s' !! u = Some (At l).
Proof.
  intros He Hu Hne.
  assert (Hlen : (u < length (pcs s'))%nat).
  { rewrite (exec_length _ _ _ He). by eapply lookup_lt_Some. }
  apply lookup_lt_is_Some in Hlen as [q Hq].
  destruct (exec_pcs _ _ _ _ _ He Hq) as (p' & Hp' & Hcase). simplify_eq.
  destruct Hcase as [->|[[cv ->]|Hmove]]; [done|done|].
  destruct e as [t m|t c|t|]; simpl in *.
  - by destruct Hmove as (_ & [h ?] & _).
  - destruct Hmove as (-> & _). by destruct (Hne c).
  - by destruct Hmove as (_ & ->).
  - done.
Qed.

(** ** No missed wake-up *)

Lemma parked_writer_step n e s s' :
  reachable n s →
  (∀ w cv, pcs s !! w = Some (Waiting cv WL56) →
     0 < reader_count_ s ∨ ∃ t p, pcs s !! t = Some p ∧ notifying p = true) →
  contract e s = true → exec e s = Some s' →
  ∀ w cv, pcs s' !! w = Some (Waiting cv WL56) →
     0 < reader_count_ s' ∨ ∃ t p, pcs s' !! t = Some p ∧ notifying p = true.
Proof.
  intros Hinv%reachable_inv HW Hc He r cv Hq.
  pose proof (inv_range _ Hinv) as Hrange.
  destruct (exec_parked _ _ _ _ _ _ He Hq) as [Hp|(Hp & Hwt & _ & Hcnt)].
  2:{ left. rewrite Hcnt. simpl in Hwt. by apply Z.ltb_lt. }
  pose proof (announced_entered _ _ _ Hinv Hp eq_refl) as Hflag.
  assert (Hcv : cv = writer_).
  { pose proof (inv_wf _ Hinv _ _ Hp). by destruct cv. }
  subst cv.
  destruct (exec_fields _ _ _ He) as [(t & c & l & -> & Ht & Hs)|(_ & Hcnt & Hrl)].
  - pose proof (statement_fields _ _ _ _ _ Hs) as [_ Hcnt].
    pose proof (statement_target _ _ _ _ _ Ht Hs) as Htg.
    destruct (HW _ _ Hp) as [Hpos|(t0 & p0 & Ht0 & Hn0)].
    + destruct (decide (l = RU88)) as [->|Hl88].
      * rewrite wrap32_pred in Hcnt by lia.
        destruct (decide (reader_count_ s = 1)) as [H1|H1]; [|left; lia].
        right. exists t, (At RU89). done.
      * left. destruct l; try done; try lia.
        pose proof (inv_local _ Hinv _ _ Ht) as [Hf _]. congruence.
    + destruct (decide (t0 = t)) as [->|Hne].
      * rewrite Ht in Ht0. simplify_eq. destruct l; try done; simpl in *.
        -- right. exists t. eexists. split; [exact Htg|]. by rewrite Hflag.
        -- destruct (reader_count_ s =? 0) eqn:H0.
           ++ right. exists t. eexists. split; [exact Htg|]. done.
           ++ left. apply Z.eqb_neq in H0. lia.
        -- exfalso. revert Hs. unfold statement. simpl.
           destruct (notify_one writer_ c s) as [s1|] eqn:Hn; [simpl|done].
           intros [= <-].
           destruct (notify_one_spec _ _ _ _ Hn) as (_ & _ & _ & _ & _ & Hcase).
           destruct Hcase as [[Hno _]|(l' & Hpick & Heq)].
           { by pose proof (Hno _ _ Hp). }
           assert (l' = WL56) as ->.
           { pose proof (inv_wf _ Hinv _ _ Hpick). by destruct l'. }
           assert (c = r) as -> by by eapply (announced_unique s).
           assert (r ≠ t) by congruence.
           rewrite goto_others in Hq by done. rewrite Heq in Hq.
           rewrite list_lookup_insert_eq in Hq by (by eapply lookup_lt_Some). done.
      * right. exists t0, p0. split; [|done].
        destruct p0 as [|l0| |]; try done.
        eapply exec_stays_At; [exact He|exact Ht0|]. intros c' [= -> _]. done.
  - destruct (HW _ _ Hp) as [Hpos|(t0 & p0 & Ht0 & Hn0)]; [left; lia|].
    right. exists t0, p0. split; [|done].
    destruct p0 as [|l0| |]; try done.
    eapply exec_stays_At; [exact He|exact Ht0|].
    intros c' ->. destruct (Hrl _ _ eq_refl) as [l' Hl']. congruence.
Qed.

(** X3. No missed wake-up for the draining writer.  Whenever a writer is
    parked in the loop of line 56, [reader_count_] is still positive, or the
    reader that took it to 0 is between its lines 89 and 93, on its way to
    the [notify_one] that wakes the writer.  So when the mutex is free, a
    writer parked at line 57 always has a reader left to wait for. *)
Theorem no_missed_wakeup_writer n s w cv :
  reachable n s → pcs s !! w = Some (Waiting cv WL56) →
  (0 < reader_count_ s ∨ ∃ t p, pcs s !! t = Some p ∧ notifying p = true) ∧
  (mutex_ s = None → 0 < reader_count_ s).
Proof.
  intros Hr Hw.
  assert (HW : ∀ w cv, pcs s !! w = Some (Waiting cv WL56) →
     0 < reader_count_ s ∨ ∃ t p, pcs s !! t = Some p ∧ notifying p = true).
  { clear Hw. pattern s. revert s Hr. apply reachable_ind.
    - intros w' cv' [? _]%lookup_replicate. done.
    - intros e s s' Hr HW Hc He. by eapply parked_writer_step. }
  split; [by eapply HW|]. intros Hm.
  destruct (HW _ _ Hw) as [?|(t & p & Ht & Hn)]; [done|].
  pose proof (inv_mutex _ (reachable_inv _ _ Hr) t p Ht) as Hmx.
  destruct p as [|[]| |]; try done; specialize (Hmx eq_refl); congruence.
Qed.

(** X4. No missed wake-up for a queued writer.  A writer parked in the
    first loop of [WLock] (line 52) is never left behind by a [WUnlock]:
    whenever the mutex is free and a thread is parked there,
    [writer_entered_] is set. *)
Theorem no_missed_wakeup_queued_writer n s t cv :
  reachable n s → pcs s !! t = Some (Waiting cv WL50) → mutex_ s = None →
  writer_entered_ s = true.
Proof.
  intros Hinv%reachable_inv Ht Hm.
  destruct (inv_queue _ Hinv _ _ Ht) as [?|[u Hu]]; [done|].
  pose proof (inv_mutex _ Hinv _ _ Hu eq_refl). congruence.
Qed.

Lemma parked_reader_step n e s s' :
  Z.of_nat n ≤ MAX_READERS → reachable n s →
  (∀ r cv, pcs s !! r = Some (Waiting cv RL77) →
     writer_entered_ s = true ∨ ∃ u, pcs s !! u = Some (At WU68)) →
  contract e s = true → exec e s = Some s' →
  ∀ r cv, pcs s' !! r = Some (Waiting cv RL77) →
     writer_entered_ s' = true ∨ ∃ u, pcs s' !! u = Some (At WU68).
Proof.
  intros Hn Hr HP Hc He r cv Hq. pose proof (reachable_inv _ _ Hr) as Hinv.
  destruct (exec_parked _ _ _ _ _ _ He Hq) as [Hp|(Hp & Hwt & Hf & _)].
  2:{ left. rewrite Hf. simpl in Hwt. apply orb_true_iff in Hwt as [?|Hmax]; [done|].
      apply Z.eqb_eq in Hmax.
      pose proof (count_lt_length counted _ _ _ Hp eq_refl) as Hlt.
      rewrite (reachable_length _ _ Hr) in Hlt.
      pose proof (inv_readers _ Hinv). lia. }
  assert (Hcv : cv = reader_).
  { pose proof (inv_wf _ Hinv _ _ Hp). by destruct cv. }
  subst cv.
  destruct (exec_fields _ _ _ He) as [(t & c & l & -> & Ht & Hs)|(Hf & _ & Hrl)].
  - pose proof (statement_fields _ _ _ _ _ Hs) as [Hf _].
    pose proof (statement_target _ _ _ _ _ Ht Hs) as Htg.
    destruct (decide (l = WU67)) as [->|H67]; [right; by exists t|].
    destruct (decide (l = WL54)) as [->|H54]; [by left|].
    destruct (decide (l = WU68)) as [->|H68].
    { exfalso. revert Hs. unfold statement. simpl. intros [= <-].
      assert (r ≠ t) by congruence.
      rewrite goto_others in Hq by done. simpl in Hq.
      by rewrite list_lookup_fmap, Hp in Hq. }
    assert (Hf' : writer_entered_ s' = writer_entered_ s) by by destruct l.
    destruct (HP _ _ Hp) as [?|[u Hu]]; [left; congruence|].
    right. exists u. eapply exec_stays_At; [exact He|exact Hu|].
    intros c' [= -> _]. congruence.
  - destruct (HP _ _ Hp) as [?|[u Hu]]; [left; congruence|].
    right. exists u. eapply exec_stays_At; [exact He|exact Hu|].
    intros c' ->. destruct (Hrl _ _ eq_refl) as [l' Hl']. congruence.
Qed.

(** X5. No missed wake-up for a parked reader, and no use for the cap, in a
    program of at most [MAX_READERS] threads: [reader_count_] never reaches
    [MAX_READERS] while a thread is outside the latch or parked, so a reader
    is parked at line 78 only because a writer has entered, and whenever the
    mutex is free and a reader is parked there, [writer_entered_] is set. *)
Theorem no_missed_wakeup_reader n s t cv :
  reachable n s → Z.of_nat n ≤ MAX_READERS →
  pcs s !! t = Some (Waiting cv RL77) →
  reader_count_ s < MAX_READERS ∧
  (writer_entered_ s = true ∨ ∃ u, pcs s !! u = Some (At WU68)) ∧
  (mutex_ s = None → writer_entered_ s = true).
Proof.
  intros Hr Hn Ht. pose proof (reachable_inv _ _ Hr) as Hinv.
  assert (HP : ∀ r cv, pcs s !! r = Some (Waiting cv RL77) →
     writer_entered_ s = true ∨ ∃ u, pcs s !! u = Some (At WU68)).
  { clear Ht Hinv. pattern s. revert s Hr. apply reachable_ind.
    - intros r' cv' [? _]%lookup_replicate. done.
    - intros e s s' Hr HP Hc He. by eapply parked_reader_step. }
  split; [|split; [by eapply HP|]].
  - pose proof (count_lt_length counted _ _ _ Ht eq_refl) as Hlt.
    rewrite (reachable_length _ _ Hr) in Hlt.
    pose proof (inv_readers _ Hinv). lia.
  - intros Hm. destruct (HP _ _ Ht) as [?|[u Hu]]; [done|].
    pose proof (inv_mutex _ Hinv _ _ Hu eq_refl). congruence.
Qed.

(** X6. Below the cap readers only ever wait for writers: in a program of at
    most [MAX_READERS] threads, an [RLock] by an idle thread that finds the
    mutex free parks if and only if [writer_entered_] is set, and otherwise
    returns with [reader_count_] one higher. *)
Theorem RLock_blocks_iff_writer n s t pick :
  reachable n s → Z.of_nat n ≤ MAX_READERS →
  pcs s !! t = Some (Rest Idle) → mutex_ s = None → object s ≠ Destroyed →
  call t mRLock pick s =
    Some (if writer_entered_ s
          then goto t (Waiting reader_ RL77) s
          else goto t (Rest Reading) (set_reader_count_ (reader_count_ s + 1) s)).
Proof.
  intros Hr Hn Ht Hm Ho. pose proof (reachable_inv _ _ Hr) as Hinv.
  pose proof (count_lt_length counted _ _ _ Ht eq_refl) as Hlt.
  rewrite (reachable_length _ _ Hr) in Hlt.
  pose proof (inv_readers _ Hinv). pose proof (inv_range _ Hinv).
  rewrite (call_RLock _ _ _ _ Ho Hm Ht).
  assert ((reader_count_ s =? MAX_READERS) = false) as -> by (apply Z.eqb_neq; lia).
  rewrite orb_false_r, wrap32_small by (unfold MAX_READERS in *; lia). done.
Qed.

(** ** Loops and wake-ups *)

(** X7. A spurious wake-up is harmless: a thread parked in any of the three
    [while] loops that wakes up while its loop condition still holds takes
    the mutex, tests the condition, and parks again, leaving the state
    exactly as it was. *)
Theorem spurious_wakeup_harmless s t cv l pick :
  object s ≠ Destroyed → mutex_ s = None →
  pcs s !! t = Some (Waiting cv l) → wait_site cv l = true →
  waits l s = true →
  exec (Spurious t) s ≫= resume t pick = Some s.
Proof.
  intros Ho Hm Ht Hsite Hw.
  assert (Hlen : (t < length (pcs s))%nat) by by eapply lookup_lt_Some.
  unfold exec. rewrite Ht. simpl.
  assert (Hback : ∀ s0, pcs s0 = <[t := Waiting cv l]> (pcs s) → mutex_ s0 = None →
            reader_count_ s0 = reader_count_ s → writer_entered_ s0 = writer_entered_ s →
            object s0 = object s → signals s0 = signals s → s0 = s).
  { intros s0 Hp ? ? ? ? ?. apply state_eq; try congruence.
    rewrite Hp. by apply list_insert_id. }
  destruct cv, l; try done; simpl in Hw.
  - erewrite resume_WLock_56; [|done|done|by apply pcs_goto_eq].
    simpl. rewrite Hw. f_equal. apply Hback; simpl; try done.
    by rewrite !list_insert_insert_eq.
  - erewrite resume_WLock_50; [|done|done|by apply pcs_goto_eq].
    simpl. rewrite Hw. f_equal. apply Hback; simpl; try done.
    by rewrite !list_insert_insert_eq.
  - erewrite resume_RLock; [|done|done|by apply pcs_goto_eq].
    simpl. rewrite Hw. f_equal. apply Hback; simpl; try done.
    by rewrite !list_insert_insert_eq.
Qed.

(** ** Handing the latch over *)

(** X8. The last reader hands the latch to the draining writer: when a
    writer is parked in the loop of line 56 and the only remaining reader
    releases, the [notify_one] of line 93 can only pick that writer, the
    writer is woken, and on taking the mutex again it finds the count at 0
    and returns from [WLock]. *)
Theorem last_reader_hands_over n s t w :
  reachable n s → mutex_ s = None → object s ≠ Destroyed →
  pcs s !! t = Some (Rest Reading) →
  pcs s !! w = Some (Waiting writer_ WL56) → reader_count_ s = 1 →
  (∀ pick s1, call t mRUnlock pick s = Some s1 → pick = w) ∧
  ∃ s1 s2,
    call t mRUnlock w s = Some s1 ∧ pcs s1 !! w = Some (Relock WL56) ∧
    resume w w s1 = Some s2 ∧
    pcs s2 !! w = Some (Rest Writing) ∧ pcs s2 !! t = Some (Rest Idle) ∧
    reader_count_ s2 = 0 ∧ writer_entered_ s2 = true ∧ mutex_ s2 = None.
Proof.
  intros Hr Hm Ho Ht Hw Hc. pose proof (reachable_inv _ _ Hr) as Hinv.
  pose proof (announced_entered _ _ _ Hinv Hw eq_refl) as Hflag.
  assert (Hne : w ≠ t) by congruence.
  assert (Hlt : (t < length (pcs s))%nat) by by eapply lookup_lt_Some.
  assert (Hlw : (w < length (pcs s))%nat) by by eapply lookup_lt_Some.
  assert (Hcall : ∀ pick, call t mRUnlock pick s =
            goto t (Rest Idle) <$> notify_one writer_ pick (set_reader_count_ 0 s)).
  { intros pick. rewrite (call_RUnlock _ _ _ _ Ho Hm Ht). simpl.
    rewrite Hflag, Hc. done. }
  split.
  - intros pick s1. rewrite Hcall.
    destruct (notify_one writer_ pick _) as [s0|] eqn:Hn; [simpl|done]. intros _.
    destruct (notify_one_spec _ _ _ _ Hn) as (_ & _ & _ & _ & _ & Hcase). simpl in Hcase.
    destruct Hcase as [[Hno _]|(l' & Hpick & _)]; [by pose proof (Hno _ _ Hw)|].
    assert (l' = WL56) as ->.
    { pose proof (inv_wf _ Hinv _ _ Hpick). by destruct l'. }
    by eapply (announced_unique s).
  - assert (Hn : notify_one writer_ w (set_reader_count_ 0 s) =
                 Some (emit (notified_one writer_)
                         (goto w (Relock WL56) (set_reader_count_ 0 s)))).
    { unfold notify_one. simpl. rewrite Hw. simpl.
      rewrite ?bool_decide_eq_true_2 by done.
      assert (existsb (waiting_on writer_) (pcs s) = true) as ->; [|done].
      apply existsb_exists. exists (Waiting writer_ WL56). split; [|done].
      apply list_elem_of_In, list_elem_of_lookup. eauto. }
    eexists. eexists. split; [by rewrite Hcall, Hn|]. simpl.
    split. { rewrite list_lookup_insert_ne by done. by apply list_lookup_insert_eq. }
    split.
    { apply resume_WLock_56; simpl; try done.
      rewrite list_lookup_insert_ne by done. by apply list_lookup_insert_eq. }
    simpl. split. { apply list_lookup_insert_eq. by rewrite !length_insert. }
    split; [|done]. rewrite list_lookup_insert_ne by done.
    apply list_lookup_insert_eq. by rewrite length_insert.
Qed.

(** X9. The writer hands the latch to whoever it wakes: after [WUnlock] by
    the writer, a reader that was parked at line 78 and takes the mutex
    first is let in, and a writer that was parked at line 52 and takes the
    mutex first sets [writer_entered_] again and returns from [WLock]
    without waiting in the second loop. *)
Theorem writer_hands_over n s t pick :
  reachable n s → mutex_ s = None → object s ≠ Destroyed →
  pcs s !! t = Some (Rest Writing) →
  ∃ s1, call t mWUnlock pick s = Some s1 ∧
    (∀ r, pcs s !! r = Some (Waiting reader_ RL77) →
          resume r pick s1 =
            Some (goto r (Rest Reading) (set_reader_count_ 1 s1))) ∧
    (∀ q, pcs s !! q = Some (Waiting reader_ WL50) →
          resume q pick s1 =
            Some (goto q (Rest Writing) (set_writer_entered_ true s1))).
Proof.
  intros Hr Hm Ho Ht. pose proof (reachable_inv _ _ Hr) as Hinv.
  destruct (drained_alone _ _ _ Hinv Ht eq_refl) as (_ & Hc & _).
  eexists. split; [by eapply call_WUnlock|].
  assert (Hwoken : ∀ r l, pcs s !! r = Some (Waiting reader_ l) →
            pcs (goto t (Rest Idle)
                   (emit (notified_all reader_)
                      (set_pcs (wake_on reader_ <$> pcs s)
                         (set_writer_entered_ false s)))) !! r = Some (Relock l)).
  { intros r l Hrl. assert (r ≠ t) by congruence.
    rewrite goto_others by done. simpl. by rewrite list_lookup_fmap, Hrl. }
  split.
  - intros r Hrl. erewrite resume_RLock; [|done|done|by apply Hwoken].
    simpl. rewrite Hc. done.
  - intros q Hq. erewrite resume_WLock_50; [|done|done|by apply Hwoken].
    simpl. rewrite Hc. done.
Qed.

(** ** Contract violations *)

Lemma next_well_formed p q :
  q ∈ next p → (∃ l, p = At l ∨ p = Relock l) → well_formed p = true →
  well_formed q = true.
Proof.
  intros Hq [l [-> | ->]] Hwf; destruct l; simpl in *; try done;
    rewrite ?elem_of_cons, ?list_elem_of_singleton, ?elem_of_nil in Hq;
    repeat destruct Hq as [Hq|Hq]; subst; done.
Qed.

Lemma exec_well_formed e s s' :
  (∀ t p, pcs s !! t = Some p → well_formed p = true) →
  exec e s = Some s' →
  ∀ t p, pcs s' !! t = Some p → well_formed p = true.
Proof.
  intros Hwf He r q Hq.
  destruct (exec_pcs _ _ _ _ _ He Hq) as (p & Hp & Hcase).
  pose proof (Hwf _ _ Hp) as Hwp.
  destruct Hcase as [->|[[cv ->]|Hmove]]; [done|by apply wake_on_well_formed|].
  destruct e as [t m|t c|t|]; simpl in *.
  - by destruct Hmove as (_ & _ & ->).
  - destruct Hmove as (_ & Hn & Hl). by eapply next_well_formed.
  - destruct Hmove as (_ & ->). by destruct p as [| |[] []|].
  - done.
Qed.

Lemma stuck_step e s s' :
  stuck s → contract e s = true → exec e s = Some s' → stuck s'.
Proof.
  intros [Hflag Hall] Hc He.
  assert (Hwf : ∀ t p, pcs s !! t = Some p → well_formed p = true)
    by (intros t p Hp; by apply (Hall _ _ Hp)).
  split.
  - destruct (exec_fields _ _ _ He) as [(t & c & l & -> & Ht & Hs)|(Hf & _)];
      [|congruence].
    pose proof (statement_fields _ _ _ _ _ Hs) as [Hf _].
    destruct (Hall _ _ Ht) as (Ha & _). destruct l; simpl in *; congruence.
  - intros r q Hq.
    assert (Hwq : well_formed q = true) by by eapply exec_well_formed.
    destruct (exec_pcs _ _ _ _ _ He Hq) as (p & Hp & Hcase).
    destruct (Hall _ _ Hp) as (Ha & H54 & H80 & Hwp).
    destruct Hcase as [->|[[cv ->]|Hmove]]; [done| |].
    { rewrite wake_on_announced. repeat split; try done.
      - by intros ->%wake_on_At.
      - by intros ->%wake_on_At. }
    destruct e as [t m|t c|t|]; simpl in *.
    + destruct Hmove as (-> & [h ->] & ->). rewrite Hp in Hc.
      by destruct m, h.
    + destruct Hmove as (-> & _ & [l [-> | ->]]).
      * destruct (exec_fields _ _ _ He) as [(t' & c' & l0 & [= <- <-] & Ht' & Hs)|(_ & _ & H)].
        -- simplify_eq. pose proof (statement_target _ _ _ _ _ Hp Hs) as Htg.
           rewrite Hq in Htg. simplify_eq.
           destruct l; simpl in *; rewrite ?Hflag; simpl; try done.
           all: repeat case_match; done.
        -- destruct (H _ _ eq_refl) as [? ?]. congruence.
      * revert Hq. unfold exec in He.
        rewrite Hp in He. unfold lock in He. destruct (mutex_ s); [done|].
        simplify_eq. simpl. rewrite list_lookup_insert_eq by (by eapply lookup_lt_Some).
        intros [= <-]. by destruct l.
    + destruct Hmove as (_ & ->). by destruct p as [| |? []|].
    + done.
Qed.

Lemma entering_step e s s' t p :
  writer_entered_ s = true → pcs s !! t = Some p → entering p = true →
  exec e s = Some s' →
  ∃ q, pcs s' !! t = Some q ∧ entering q = true.
Proof.
  intros Hflag Hp Hen He.
  assert (Hlen : (t < length (pcs s'))%nat).
  { rewrite (exec_length _ _ _ He). by eapply lookup_lt_Some. }
  apply lookup_lt_is_Some in Hlen as [q Hq]. exists q. split; [done|].
  destruct (exec_pcs _ _ _ _ _ He Hq) as (p' & Hp' & Hcase). simplify_eq.
  destruct Hcase as [->|[[cv ->]|Hmove]]; [done| |].
  { unfold wake_on. destruct p as [| |? []|[]]; simpl in *; try done;
      by case_bool_decide. }
  destruct e as [t' m|t' c|t'|]; simpl in *.
  - destruct Hmove as (_ & [h ->] & _). done.
  - destruct Hmove as (<- & Hn & [l [-> | ->]]).
    + destruct (exec_fields _ _ _ He) as [(t' & c' & l0 & [= <- <-] & Ht' & Hs)|(_ & _ & H)].
      * simplify_eq. pose proof (statement_target _ _ _ _ _ Hp Hs) as Htg.
        rewrite Hq in Htg. simplify_eq.
        destruct l; simpl in *; rewrite ?Hflag; done.
      * destruct (H _ _ eq_refl) as [? ?]. congruence.
    + simpl in Hn. apply list_elem_of_singleton in Hn as ->. by destruct l.
  - destruct Hmove as (_ & ->). by destruct p as [| |? []|].
  - done.
Qed.

(** X10. Re-entrant acquisition deadlocks.  When the thread that holds the
    write latch calls [WLock] or [RLock] again, then along every schedule
    of contract-abiding callers [writer_entered_] stays set for ever, the
    thread never gets past its first loop, no thread is ever announced as a
    writer again and no thread reaches the increment of line 80: nobody
    acquires the latch any more. *)
Theorem reentrant_deadlock n s t m s1 tr s' :
  reachable n s → pcs s !! t = Some (Rest Writing) →
  m = mWLock ∨ m = mRLock →
  exec (Call t m) s = Some s1 → run_ok tr s1 = Some s' →
  writer_entered_ s' = true ∧
  (∃ p, pcs s' !! t = Some p ∧ entering p = true) ∧
  (∀ r q, pcs s' !! r = Some q →
          announced q = false ∧ q ≠ At WL54 ∧ q ≠ At RL80).
Proof.
  intros Hr Ht Hm He Hrun. pose proof (reachable_inv _ _ Hr) as Hinv.
  pose proof (announced_entered _ _ _ Hinv Ht eq_refl) as Hflag.
  assert (Hlen : (t < length (pcs s))%nat) by by eapply lookup_lt_Some.
  assert (Hs1 : s1 = goto t (At (entry m)) s).
  { revert He. unfold exec. rewrite Ht. by intros [= <-]. }
  assert (Hstuck : stuck s1).
  { subst s1. split; [done|]. intros r q Hq.
    apply lookup_goto in Hq as [[-> ->]|[Hne Hq]].
    - by destruct Hm as [-> | ->].
    - split; [|split; [|split]].
      + destruct (announced q) eqn:Ha; [|done].
        destruct Hne. by eapply (announced_unique s).
      + intros ->. pose proof (inv_local _ Hinv _ _ Hq) as Hf. simpl in Hf. congruence.
      + intros ->. pose proof (inv_local _ Hinv _ _ Hq) as [Hf _]. congruence.
      + by eapply inv_wf. }
  assert (Hent : ∃ p, pcs s1 !! t = Some p ∧ entering p = true).
  { subst s1. exists (At (entry m)). split; [by apply pcs_goto_eq|].
    by destruct Hm as [-> | ->]. }
  clear He Hs1 Hr Hinv Ht Hflag Hlen.
  revert s1 Hrun Hstuck Hent. unfold run_ok.
  induction tr as [|e tr IH]; intros s1 Hrun Hstuck Hent; simpl in Hrun.
  { simplify_eq. destruct Hstuck as [Hf Hall]. split; [done|]. split; [done|].
    intros r q Hq. destruct (Hall _ _ Hq) as (? & ? & ? & _). done. }
  destruct (contract e s1) eqn:Hc; [|done].
  destruct (exec e s1) as [s2|] eqn:He; [simpl in Hrun|done].
  destruct Hent as (p & Hp & Hen).
  apply (IH s2); [done|by eapply stuck_step|].
  eapply entering_step; try done. by destruct Hstuck.
Qed.

Lemma wrap32_cap_1 : wrap32 (MAX_READERS - 1) = MAX_READERS - 1.
Proof. reflexivity. Qed.

Lemma wrap32_cap_2 : wrap32 (MAX_READERS - 1 - 1) = MAX_READERS - 1 - 1.
Proof. reflexivity. Qed.

Lemma wrap32_cap_3 : wrap32 (MAX_READERS - 1 - 1 + 1) = MAX_READERS - 1.
Proof. reflexivity. Qed.

Lemma notify_one_waiter cv pick l s :
  pcs s !! pick = Some (Waiting cv l) →
  notify_one cv pick s = Some (emit (notified_one cv) (goto pick (Relock l) s)).
Proof.
  intros Hp. unfold notify_one. rewrite Hp. simpl.
  rewrite bool_decide_eq_true_2 by done.
  assert (existsb (waiting_on cv) (pcs s) = true) as ->; [|done].
  apply existsb_exists. exists (Waiting cv l). split.
  - apply list_elem_of_In, list_elem_of_lookup. eauto.
  - simpl. by apply bool_decide_eq_true_2.
Qed.

(** X11. The wake policy of [RUnlock] loses a wake-up at the cap.  With
    [reader_count_] at [MAX_READERS] and two readers parked at line 78, two
    releases in a row issue a single [notify_one] (only the first one sees
    the count at [MAX_READERS - 1]); once the reader it woke is let in, the
    other reader is still parked although no writer has entered and
    [reader_count_] is below [MAX_READERS]. *)
Theorem lost_wakeup_at_cap s t1 t2 r1 r2 h1 h2 pick :
  object s ≠ Destroyed → mutex_ s = None →
  writer_entered_ s = false → reader_count_ s = MAX_READERS →
  pcs s !! t1 = Some (Rest h1) → pcs s !! t2 = Some (Rest h2) → t1 ≠ t2 →
  pcs s !! r1 = Some (Waiting reader_ RL77) →
  pcs s !! r2 = Some (Waiting reader_ RL77) → r1 ≠ r2 →
  ∃ s', (call t1 mRUnlock r1 s ≫= call t2 mRUnlock pick) ≫= resume r1 pick = Some s' ∧
    pcs s' !! r1 = Some (Rest Reading) ∧
    pcs s' !! r2 = Some (Waiting reader_ RL77) ∧
    mutex_ s' = None ∧ waits RL77 s' = false ∧
    writer_entered_ s' = false ∧ reader_count_ s' = MAX_READERS - 1 ∧
    signals s' = signals s ++ [notified_one reader_].
Proof.
  intros Ho Hm Hf Hc Ht1 Ht2 Ht Hr1 Hr2 Hr.
  assert (t1 ≠ r1) by congruence. assert (t1 ≠ r2) by congruence.
  assert (t2 ≠ r1) by congruence. assert (t2 ≠ r2) by congruence.
  assert (Hl1 : (t1 < length (pcs s))%nat) by by eapply lookup_lt_Some.
  assert (Hl2 : (t2 < length (pcs s))%nat) by by eapply lookup_lt_Some.
  assert (Hl3 : (r1 < length (pcs s))%nat) by by eapply lookup_lt_Some.
  rewrite (call_RUnlock _ _ _ _ Ho Hm Ht1). cbn zeta. rewrite Hf, Hc, wrap32_cap_1.
  rewrite Z.eqb_refl.
  rewrite (notify_one_waiter reader_ r1 RL77) by done. cbn [fmap option_fmap option_map mbind option_bind].
  erewrite call_RUnlock; [|done|done|].
  2:{ simpl. rewrite !list_lookup_insert_ne by done. exact Ht2. }
  cbn zeta. cbn [writer_entered_ reader_count_ goto emit set_pcs set_reader_count_].
  rewrite Hf, wrap32_cap_2.
  assert ((MAX_READERS - 1 - 1 =? MAX_READERS - 1) = false) as -> by reflexivity.
  cbn [mbind option_bind].
  erewrite resume_RLock; [|done|done|].
  2:{ simpl. rewrite list_lookup_insert_ne by done.
      rewrite list_lookup_insert_ne by done.
      apply list_lookup_insert_eq. done. }
  cbn [writer_entered_ reader_count_ goto emit set_pcs set_reader_count_].
  rewrite Hf.
  assert ((MAX_READERS - 1 - 1 =? MAX_READERS) = false) as -> by reflexivity.
  rewrite wrap32_cap_3. simpl orb. cbv iota.
  eexists. split; [reflexivity|].
  cbn [pcs mutex_ writer_entered_ reader_count_ signals waits
       goto emit set_pcs set_reader_count_].
  split. { apply list_lookup_insert_eq. by rewrite !length_insert. }
  split. { by rewrite !list_lookup_insert_ne by done. }
  split; [done|]. rewrite Hf. split; [reflexivity|]. done.
Qed.

(** X12. Acquire and release are exact inverses.  From any state in which
    an idle thread finds the mutex free and no writer entered: [RLock]
    followed by [RUnlock] gives back exactly the state it started from
    (below the cap), whatever other readers are present; and, with no
    reader present and nobody parked on [reader_], [WLock] followed by
    [WUnlock] gives it back with only the [notify_all] added to the record. *)
Theorem acquire_release_round_trip s t pick pick' :
  object s ≠ Destroyed → mutex_ s = None →
  pcs s !! t = Some (Rest Idle) → writer_entered_ s = false →
  (0 ≤ reader_count_ s → reader_count_ s + 1 < MAX_READERS →
   call t mRLock pick s ≫= call t mRUnlock pick' = Some s) ∧
  (reader_count_ s = 0 →
   (∀ r p, pcs s !! r = Some p → waiting_on reader_ p = false) →
   call t mWLock pick s ≫= call t mWUnlock pick' =
     Some (emit (notified_all reader_) s)).
Proof.
  intros Ho Hm Ht Hf.
  assert (Hlen : (t < length (pcs s))%nat) by by eapply lookup_lt_Some.
  split.
  - intros H0 Hmax. rewrite (call_RLock _ _ _ _ Ho Hm Ht), Hf.
    assert ((reader_count_ s =? MAX_READERS) = false) as -> by (apply Z.eqb_neq; lia).
    rewrite wrap32_small by (unfold MAX_READERS in *; lia).
    cbn [orb mbind option_bind].
    erewrite call_RUnlock; [|done|done|by apply pcs_goto_eq].
    cbn zeta. cbn [writer_entered_ reader_count_ goto set_pcs set_reader_count_].
    rewrite Hf. replace (reader_count_ s + 1 - 1) with (reader_count_ s) by lia.
    rewrite wrap32_small by (unfold MAX_READERS in *; lia).
    assert ((reader_count_ s =? MAX_READERS - 1) = false) as -> by (apply Z.eqb_neq; lia).
    f_equal. apply state_eq; simpl; try done.
    rewrite list_insert_insert_eq. by apply list_insert_id.
  - intros Hc Hno. rewrite (call_WLock _ _ _ _ Ho Hm Ht), Hf, Hc.
    cbn [Z.ltb Z.compare mbind option_bind].
    erewrite call_WUnlock; [|done|done|by apply pcs_goto_eq].
    f_equal. apply state_eq; simpl; try done.
    rewrite list_fmap_insert, list_insert_insert_eq.
    assert (wake_on reader_ <$> pcs s = pcs s) as ->.
    { apply list_eq. intros i. rewrite list_lookup_fmap.
      destruct (pcs s !! i) as [p|] eqn:Hp; [simpl|done].
      unfold wake_on. by rewrite (Hno _ _ Hp). }
    by apply list_insert_id.
Qed.

(** X13. The latch does not check who releases it: a [WUnlock] by a thread
    that does not hold the write latch clears [writer_entered_] under the
    writer's feet, and the next [RLock] is let in while the writer is still
    writing.  Mutual exclusion rests on the callers' contract. *)
Theorem unchecked_WUnlock n s w t r pick :
  reachable n s → mutex_ s = None → object s ≠ Destroyed →
  pcs s !! w = Some (Rest Writing) →
  pcs s !! t = Some (Rest Idle) → pcs s !! r = Some (Rest Idle) →
  ∃ s', call t mWUnlock pick s ≫= call r mRLock pick = Some s' ∧
    pcs s' !! w = Some (Rest Writing) ∧ pcs s' !! r = Some (Rest Reading) ∧
    writer_entered_ s' = false ∧ reader_count_ s' = 1.
Proof.
  intros Hr Hm Ho Hw Ht Hrd. pose proof (reachable_inv _ _ Hr) as Hinv.
  destruct (drained_alone _ _ _ Hinv Hw eq_refl) as (_ & Hc & _).
  assert (w ≠ t) by congruence. assert (w ≠ r) by congruence.
  assert (Hlt : (t < length (pcs s))%nat) by by eapply lookup_lt_Some.
  assert (Hlr : (r < length (pcs s))%nat) by by eapply lookup_lt_Some.
  rewrite (call_WUnlock _ _ _ _ Ho Hm Ht). cbn [mbind option_bind].
  assert (Hr1 : ∃ h, pcs (goto t (Rest Idle)
                   (emit (notified_all reader_)
                      (set_pcs (wake_on reader_ <$> pcs s)
                         (set_writer_entered_ false s)))) !! r = Some (Rest h)).
  { simpl. destruct (decide (r = t)) as [->|?].
    - exists Idle. apply list_lookup_insert_eq. by rewrite length_fmap.
    - exists Idle. rewrite list_lookup_insert_ne by done.
      by rewrite list_lookup_fmap, Hrd. }
  destruct Hr1 as [h Hr1].
  erewrite call_RLock; [|done|done|exact Hr1].
  cbn [writer_entered_ reader_count_ goto emit set_pcs set_writer_entered_].
  rewrite Hc. eexists. split; [reflexivity|]. simpl.
  split; [|split; [|done]].
  - rewrite !list_lookup_insert_ne by done. by rewrite list_lookup_fmap, Hw.
  - apply list_lookup_insert_eq. by rewrite length_insert, length_fmap.
Qed.

(** X14. One [notify_one] on [writer_] is enough: in every reachable state
    at most one thread is parked on [writer_], and it is the announced
    writer, parked in the loop of line 56. *)
Theorem single_writer_waiter n s w1 w2 l1 l2 :
  reachable n s →
  pcs s !! w1 = Some (Waiting writer_ l1) →
  pcs s !! w2 = Some (Waiting writer_ l2) →
  w1 = w2 ∧ l1 = WL56 ∧ writer_entered_ s = true.
Proof.
  intros Hinv%reachable_inv H1 H2.
  assert (l1 = WL56) as -> by (pose proof (inv_wf _ Hinv _ _ H1); by destruct l1).
  assert (l2 = WL56) as -> by (pose proof (inv_wf _ Hinv _ _ H2); by destruct l2).
  split; [by eapply (announced_unique s)|]. split; [done|].
  by eapply announced_entered.
Qed.

(** ** These theorems at work on the examples *)

Lemma queued_reachable : reachable 3 queued_state.
Proof. exists queues. vm_compute. reflexivity. Defined.

Lemma refused_reachable : reachable 3 refused_state.
Proof. exists refuses. vm_compute. reflexivity. Defined.

Example fills_run : run fills (init 4) = Some full_state.
Proof. vm_compute. reflexivity. Qed.

Lemma mutex_exclusive_witness :
  reachable 3 releasing_state ∧ mutex_ releasing_state = Some (Thread 0).
Proof.
  split; [exact releasing_reachable|].
  destruct (mutex_exclusive 3 releasing_state 0 0 (At RU88) (At RU88)
              releasing_reachable) as (_ & H & _);
    [reflexivity|reflexivity|reflexivity|reflexivity|].
  exact H.
Defined.

Lemma reader_count_exact_witness :
  reachable 3 reading_state ∧
  reader_count_ reading_state = Z.of_nat (count counted (pcs reading_state)).
Proof.
  split; [exact reading_reachable|].
  destruct (reader_count_exact 3 reading_state reading_reachable) as [H _].
  exact H.
Defined.

Lemma no_missed_wakeup_writer_witness :
  reachable 3 draining_state ∧ 0 < reader_count_ draining_state.
Proof.
  split; [exact draining_reachable|].
  destruct (no_missed_wakeup_writer 3 draining_state 1 writer_
              draining_reachable) as [_ H]; [reflexivity|].
  apply H. reflexivity.
Defined.

Lemma no_missed_wakeup_queued_writer_witness :
  reachable 3 queued_state ∧ writer_entered_ queued_state = true.
Proof.
  split; [exact queued_reachable|].
  apply (no_missed_wakeup_queued_writer 3 queued_state 2 reader_
           queued_reachable); reflexivity.
Defined.

Lemma no_missed_wakeup_reader_witness :
  reachable 3 refused_state ∧ reader_count_ refused_state < MAX_READERS.
Proof.
  split; [exact refused_reachable|].
  destruct (no_missed_wakeup_reader 3 refused_state 2 reader_
              refused_reachable) as [H _];
    [vm_compute; discriminate|reflexivity|].
  exact H.
Defined.

Lemma RLock_blocks_iff_writer_witness :
  reachable 3 reading_state ∧
  call 1 mRLock 1 reading_state =
    Some (goto 1 (Rest Reading) (set_reader_count_ 2 reading_state)).
Proof.
  split; [exact reading_reachable|].
  apply (RLock_blocks_iff_writer 3 reading_state 1 1 reading_reachable);
    [vm_compute; discriminate|reflexivity|reflexivity|discriminate].
Defined.

Lemma spurious_wakeup_harmless_witness :
  waits RL77 refused_state = true ∧
  exec (Spurious 2) refused_state ≫= resume 2 2 = Some refused_state.
Proof.
  split; [reflexivity|].
  apply (spurious_wakeup_harmless refused_state 2 reader_ RL77 2);
    [discriminate|reflexivity|reflexivity|reflexivity|reflexivity].
Defined.

Lemma last_reader_hands_over_witness :
  reachable 3 draining_state ∧ reader_count_ draining_state = 1 ∧
  ∀ pick s1, call 0 mRUnlock pick draining_state = Some s1 → pick = 1%nat.
Proof.
  split; [exact draining_reachable|]. split; [reflexivity|].
  destruct (last_reader_hands_over 3 draining_state 0 1 draining_reachable)
    as [H _]; [reflexivity|discriminate|reflexivity|reflexivity|reflexivity|].
  exact H.
Defined.

Lemma writer_hands_over_witness :
  reachable 3 contended_state ∧
  ∃ s1, call 1 mWUnlock 1 contended_state = Some s1 ∧
        resume 0 1 s1 = Some (goto 0 (Rest Reading) (set_reader_count_ 1 s1)) ∧
        resume 2 1 s1 = Some (goto 2 (Rest Writing) (set_writer_entered_ true s1)).
Proof.
  split; [exact contended_reachable|].
  destruct (writer_hands_over 3 contended_state 1 1 contended_reachable)
    as (s1 & Hc & Hr & Hw); [reflexivity|discriminate|reflexivity|].
  exists s1. split; [exact Hc|]. split.
  - apply Hr. reflexivity.
  - apply Hw. reflexivity.
Defined.

Lemma reentrant_deadlock_witness :
  reachable 3 writing_state ∧
  exec (Call 1 mWLock) writing_state = Some reentering_state ∧
  run_ok [Step 1 1; Step 1 1] reentering_state = Some reentered_state ∧
  writer_entered_ reentered_state = true.
Proof.
  split; [exact writing_reachable|]. split; [vm_compute; reflexivity|].
  split; [vm_compute; reflexivity|].
  destruct (reentrant_deadlock 3 writing_state 1 mWLock reentering_state
              [Step 1 1; Step 1 1] reentered_state writing_reachable)
    as [H _];
    [reflexivity|left; reflexivity|vm_compute; reflexivity
    |vm_compute; reflexivity|].
  exact H.
Defined.

Lemma lost_wakeup_at_cap_witness :
  reader_count_ full_state = MAX_READERS ∧
  ∃ s', (call 0 mRUnlock 2 full_state ≫= call 1 mRUnlock 2) ≫= resume 2 2
          = Some s' ∧
        pcs s' !! 3%nat = Some (Waiting reader_ RL77) ∧
        waits RL77 s' = false.
Proof.
  split; [reflexivity|].
  destruct (lost_wakeup_at_cap full_state 0 1 2 3 Idle Idle 2)
    as (s' & H & _ & Hp & _ & Hw & _);
    [discriminate|reflexivity|reflexivity|reflexivity|reflexivity|reflexivity
    |discriminate|reflexivity|reflexivity|discriminate|].
  exists s'. split; [exact H|]. split; [exact Hp|exact Hw].
Defined.

Lemma acquire_release_round_trip_witness :
  pcs reading_state !! 1%nat = Some (Rest Idle) ∧
  call 1 mRLock 1 reading_state ≫= call 1 mRUnlock 1 = Some reading_state.
Proof.
  split; [reflexivity|].
  destruct (acquire_release_round_trip reading_state 1 1 1) as [H _];
    [discriminate|reflexivity|reflexivity|reflexivity|].
  apply H; [vm_compute; discriminate|vm_compute; reflexivity].
Defined.

Lemma unchecked_WUnlock_witness :
  reachable 3 writing_state ∧
  ∃ s', call 0 mWUnlock 0 writing_state ≫= call 2 mRLock 0 = Some s' ∧
        pcs s' !! 1%nat = Some (Rest Writing) ∧
        pcs s' !! 2%nat = Some (Rest Reading).
Proof.
  split; [exact writing_reachable|].
  destruct (unchecked_WUnlock 3 writing_state 1 0 2 0 writing_reachable)
    as (s' & H & Hw & Hr & _);
    [reflexivity|discriminate|reflexivity|reflexivity|reflexivity|].
  exists s'. split; [exact H|]. split; [exact Hw|exact Hr].
Defined.

Lemma single_writer_waiter_witness :
  reachable 3 draining_state ∧ writer_entered_ draining_state = true.
Proof.
  split; [exact draining_reachable|].
  destruct (single_writer_waiter 3 draining_state 1 1 WL56 WL56
              draining_reachable) as (_ & _ & H); [reflexivity|reflexivity|].
  exact H.
Defined.
